(** * BandageNG: assembly graph, overlap resolver, path tracer, query-path scorer

    A shallow embedding of
      - [src/graph/debruijnnode.h]      (DeBruijnNode accessors),
      - [src/graph/debruijnedge.cpp]    (DeBruijnEdge),
      - [src/graphsearch/querypath.cpp] (QueryPath),
      - [src/graphsearch/blast/blastsearch.cpp] (BlastSearch),
    followed by the properties of these functions.

    Conventions.
      - C++ [int] values are integers of [Z]. Signed overflow is undefined
        in C++; the sums and differences of lengths, positions and settings
        formed by the modelled functions stay inside the 32-bit range for
        the graphs the program loads, and no overflow is modelled.
      - C++ [double] is IEEE-754 binary64, i.e. Rocq's primitive [float].
      - Objects that the C++ code addresses through pointers (nodes, edges)
        live in two arenas of the graph; a pointer is an index into its
        arena and pointer equality is equality of indices. *)

From stdpp Require Import gmap.
From Stdlib Require Import ZArith List String Ascii Bool Lia Arith.
From Stdlib Require Import Permutation Sorted Floats Uint63.
Import ListNotations.

Open Scope Z_scope.

(* ================================================================== *)
(** * Part I. The embedding                                            *)
(* ================================================================== *)

(** ** Graph model *)

Definition NodePtr := nat.
Definition EdgePtr := nat.

(** [enum EdgeOverlapType] (program/globals.h). *)
Inductive EdgeOverlapType : Type :=
| UNKNOWN_OVERLAP
| EXACT_OVERLAP
| AUTO_DETERMINED_EXACT_OVERLAP.

(** The fields of [class DeBruijnNode] that the modelled functions read.
    [m_sequence] is the byte string of the node; [m_length] is stored
    separately, as in the class. *)
Record DeBruijnNode : Type := mkNode {
  m_name : string;
  m_sequence : list ascii;
  m_length : Z;
  n_reverseComplement : NodePtr;
  m_edges : list EdgePtr
}.

(** The fields of [class DeBruijnEdge]. *)
Record DeBruijnEdge : Type := mkEdge {
  m_startingNode : NodePtr;
  m_endingNode : NodePtr;
  m_reverseComplement : EdgePtr;
  m_overlapType : EdgeOverlapType;
  m_overlap : Z
}.

(** [class AssemblyGraph]: the two arenas and the map
    [m_deBruijnGraphEdges] from a pair of nodes to the edge joining them. *)
Record AssemblyGraph : Type := mkGraph {
  g_nodes : list DeBruijnNode;
  g_edges : list DeBruijnEdge;
  m_deBruijnGraphEdges : gmap (NodePtr * NodePtr) EdgePtr
}.

(** What a pointer outside the arena refers to: a node without edges, and an
    edge from node 0 to node 0. *)
Definition nullNode : DeBruijnNode := mkNode EmptyString [] 0 0%nat [].
Definition nullEdge : DeBruijnEdge := mkEdge 0%nat 0%nat 0%nat UNKNOWN_OVERLAP 0.

(** Dereferencing [p->] in graph [g]. *)
Definition nodeAt (g : AssemblyGraph) (p : NodePtr) : DeBruijnNode :=
  nth p (g_nodes g) nullNode.
Definition edgeAt (g : AssemblyGraph) (p : EdgePtr) : DeBruijnEdge :=
  nth p (g_edges g) nullEdge.

(** *** DeBruijnNode accessors (debruijnnode.h) *)

Definition getName (n : DeBruijnNode) : string := m_name n.
Definition getLength (n : DeBruijnNode) : Z := m_length n.
Definition getReverseComplement (n : DeBruijnNode) : NodePtr := n_reverseComplement n.

(** [char getBaseAt(int i) const
      {if (i >= 0 && i < m_sequence.size()) return m_sequence[i]; else return '\0';}] *)
Definition getBaseAt (n : DeBruijnNode) (i : Z) : ascii :=
  if (0 <=? i) && (i <? Z.of_nat (List.length (m_sequence n)))
  then nth (Z.to_nat i) (m_sequence n) Ascii.zero
  else Ascii.zero.

(** Modelled from the spec: [isPositiveNode] and [isNegativeNode] are declared
    in debruijnnode.h and defined outside the given sources; a node identifier
    is a name followed by its strand sign, so the sign is the last character of
    the name. *)
Fixpoint lastChar (s : string) : option ascii :=
  match s with
  | EmptyString => None
  | String c EmptyString => Some c
  | String _ rest => lastChar rest
  end.

Definition isPositiveNode (n : DeBruijnNode) : bool :=
  match lastChar (m_name n) with
  | Some c => Ascii.eqb c "+"%char
  | None => false
  end.

Definition isNegativeNode (n : DeBruijnNode) : bool :=
  match lastChar (m_name n) with
  | Some c => Ascii.eqb c "-"%char
  | None => false
  end.

(** ** DeBruijnEdge (debruijnedge.cpp) *)

(** Modelled from the spec: [isOwnReverseComplement] is declared in
    debruijnedge.h, outside the given sources; an edge is its own reverse
    complement when its reverse-complement back-reference is the edge itself. *)
Definition isOwnReverseComplement (g : AssemblyGraph) (this : EdgePtr) : bool :=
  (this =? m_reverseComplement (edgeAt g this))%nat.

(** [int getOverlap() const {return m_overlap;}] (debruijnedge.h) *)
Definition getOverlap (e : DeBruijnEdge) : Z := m_overlap e.

(** [QString::operator>]: lexicographic comparison of the names. *)
Definition QString_gt (a b : string) : bool :=
  match String.compare a b with
  | Gt => true
  | _ => false
  end.

(** [bool DeBruijnEdge::isPositiveEdge() const] *)
Definition isPositiveEdge (g : AssemblyGraph) (this : EdgePtr) : bool :=
  let e := edgeAt g this in
  let startingNode := nodeAt g (m_startingNode e) in
  let endingNode := nodeAt g (m_endingNode e) in
  if isPositiveNode startingNode && isPositiveNode endingNode then true
  else if isNegativeNode startingNode && isNegativeNode endingNode then false
  else if isOwnReverseComplement g this then true
  else QString_gt (getName startingNode)
         (getName (nodeAt g (m_startingNode (edgeAt g (m_reverseComplement e))))).

(** *** Overlap resolver *)

(** The two fields of [g_settings] read by the resolver. *)
Record Settings : Type := mkSettings {
  minAutoFindEdgeOverlap : Z;
  maxAutoFindEdgeOverlap : Z
}.

(** The loop of [testExactOverlap]:
    [for (int j = 0; j < overlap && !mismatchFound; ++j)], with the number of
    iterations that are left as the structural argument; the result is the
    final value of [mismatchFound]. *)
Fixpoint testExactOverlap_loop (startingNode endingNode : DeBruijnNode)
    (seq1Offset : Z) (j : Z) (left : nat) (mismatchFound : bool) : bool :=
  match left with
  | O => mismatchFound
  | S left' =>
      if mismatchFound then mismatchFound
      else
        let a := getBaseAt startingNode (seq1Offset + j) in
        let b := getBaseAt endingNode j in
        testExactOverlap_loop startingNode endingNode seq1Offset (j + 1) left'
          (negb (Ascii.eqb a b))
  end.

(** [bool DeBruijnEdge::testExactOverlap(int overlap) const] *)
Definition testExactOverlap (g : AssemblyGraph) (this : DeBruijnEdge) (overlap : Z) : bool :=
  let startingNode := nodeAt g (m_startingNode this) in
  let endingNode := nodeAt g (m_endingNode this) in
  let seq1Offset := getLength startingNode - overlap in
  negb (testExactOverlap_loop startingNode endingNode seq1Offset 0 (Z.to_nat overlap) false).

(** The search loop of [autoDetermineExactOverlap]:
    [for (int i = min; i <= max; ++i)], again with the iterations left as the
    structural argument. The result is the value stored in [m_overlap]: the
    first candidate that passes, or the initial 0. *)
Fixpoint autoDetermine_loop (g : AssemblyGraph) (this : DeBruijnEdge)
    (min max : Z) (testOverlap : Z) (left : nat) : Z :=
  match left with
  | O => 0
  | S left' =>
      if testExactOverlap g this testOverlap then testOverlap
      else
        let testOverlap := testOverlap + 1 in
        let testOverlap := if testOverlap >? max then min else testOverlap in
        autoDetermine_loop g this min max testOverlap left'
  end.

(** The edge after the assignments [m_overlapType = t; m_overlap = ov]. *)
Definition setOverlap (e : DeBruijnEdge) (t : EdgeOverlapType) (ov : Z) : DeBruijnEdge :=
  mkEdge (m_startingNode e) (m_endingNode e) (m_reverseComplement e) t ov.

(** [void DeBruijnEdge::autoDetermineExactOverlap()].
    [rnd] is the value returned by [rand()], a non-negative integer. The
    function writes [m_overlap] and [m_overlapType]; the result is the edge
    after the call. [rand() % (max - min + 1)] with a zero divisor is undefined
    in C++: that is the result [None]. *)
Definition autoDetermineExactOverlap (s : Settings) (rnd : N)
    (g : AssemblyGraph) (this : DeBruijnEdge) : option DeBruijnEdge :=
  let this0 := setOverlap this AUTO_DETERMINED_EXACT_OVERLAP 0 in
  let minPossibleOverlap :=
    Z.min (getLength (nodeAt g (m_startingNode this)))
          (getLength (nodeAt g (m_endingNode this))) in
  if minPossibleOverlap <? minAutoFindEdgeOverlap s then Some this0
  else
    let min := Z.min minPossibleOverlap (minAutoFindEdgeOverlap s) in
    let max := Z.min minPossibleOverlap (maxAutoFindEdgeOverlap s) in
    if max - min + 1 =? 0 then None
    else
      let testOverlap := min + Z.rem (Z.of_N rnd) (max - min + 1) in
      Some (setOverlap this AUTO_DETERMINED_EXACT_OVERLAP
              (autoDetermine_loop g this0 min max testOverlap (Z.to_nat (max - min + 1)))).

(** *** Path tracer *)

(** The node an edge leads to in the direction of the traversal. *)
Definition nextNodeOf (g : AssemblyGraph) (forward : bool) (e : EdgePtr) : NodePtr :=
  if forward then m_endingNode (edgeAt g e) else m_startingNode (edgeAt g e).

(** [std::vector<DeBruijnEdge *> DeBruijnEdge::findNextEdgesInPath(nextNode, forward)] *)
Definition findNextEdgesInPath (g : AssemblyGraph) (nextNode : NodePtr) (forward : bool)
  : list EdgePtr :=
  List.filter
    (fun edge =>
       (forward && (m_startingNode (edgeAt g edge) =? nextNode)%nat)
       || (negb forward && (m_endingNode (edgeAt g edge) =? nextNode)%nat))
    (m_edges (nodeAt g nextNode)).

(** [unsigned DeBruijnEdge::timesNodeInPath(node, path)] *)
Definition timesNodeInPath (node : NodePtr) (path : list NodePtr) : nat :=
  fold_left (fun count i => (count + (if (i =? node)%nat then 1 else 0))%nat) path 0%nat.

(** The [for (auto nextEdge : nextEdges)] loop of [tracePaths]. [rec] is the
    recursive call [nextEdge->tracePaths(...)], which receives the paths
    collected so far and returns them extended. *)
Fixpoint tracePaths_loop
    (rec : EdgePtr -> list (list NodePtr) -> option (list (list NodePtr)))
    (g : AssemblyGraph) (forward : bool) (startingNode : NodePtr)
    (pathSoFar : list NodePtr) (nextEdges : list EdgePtr)
    (allPaths : list (list NodePtr)) : option (list (list NodePtr)) :=
  match nextEdges with
  | [] => Some allPaths
  | nextEdge :: rest =>
      let nextNextNode := nextNodeOf g forward nextEdge in
      if (nextNextNode =? startingNode)%nat then
        tracePaths_loop rec g forward startingNode pathSoFar rest (allPaths ++ [pathSoFar])
      else if (timesNodeInPath nextNextNode pathSoFar <? 2)%nat then
        match rec nextEdge allPaths with
        | None => None
        | Some allPaths' =>
            tracePaths_loop rec g forward startingNode pathSoFar rest allPaths'
        end
      else tracePaths_loop rec g forward startingNode pathSoFar rest allPaths
  end.

(** [void DeBruijnEdge::tracePaths(forward, stepsRemaining, allPaths,
    startingNode, pathSoFar) const]. The out-parameter [allPaths] is threaded
    through; [fuel] bounds the depth of the recursion and [None] means that it
    ran out. The call of [QApplication::processEvents()], which only keeps the
    user interface alive, is left out here and in [leadsOnlyToNode]. *)
Fixpoint tracePaths (fuel : nat) (g : AssemblyGraph) (this : EdgePtr) (forward : bool)
    (stepsRemaining : Z) (allPaths : list (list NodePtr))
    (startingNode : NodePtr) (pathSoFar : list NodePtr)
  : option (list (list NodePtr)) :=
  match fuel with
  | O => None
  | S fuel' =>
      let nextNode := nextNodeOf g forward this in
      let pathSoFar := pathSoFar ++ [nextNode] in
      let stepsRemaining := stepsRemaining - 1 in
      if stepsRemaining =? 0 then Some (allPaths ++ [pathSoFar])
      else
        let nextEdges := findNextEdgesInPath g nextNode forward in
        match nextEdges with
        | [] => Some (allPaths ++ [pathSoFar])
        | _ :: _ =>
            tracePaths_loop
              (fun nextEdge acc =>
                 tracePaths fuel' g nextEdge forward stepsRemaining acc startingNode pathSoFar)
              g forward startingNode pathSoFar nextEdges allPaths
        end
  end.

(** The [for] loop of [leadsOnlyToNode]; [rec] is the recursive call. *)
Fixpoint leadsOnlyToNode_loop (rec : EdgePtr -> option bool)
    (g : AssemblyGraph) (forward : bool) (pathSoFar : list NodePtr)
    (nextEdges : list EdgePtr) : option bool :=
  match nextEdges with
  | [] => Some true
  | nextEdge :: rest =>
      let nextNextNode := nextNodeOf g forward nextEdge in
      if (timesNodeInPath nextNextNode pathSoFar <? 2)%nat then
        match rec nextEdge with
        | None => None
        | Some false => Some false
        | Some true => leadsOnlyToNode_loop rec g forward pathSoFar rest
        end
      else leadsOnlyToNode_loop rec g forward pathSoFar rest
  end.

(** [bool DeBruijnEdge::leadsOnlyToNode(forward, stepsRemaining, target,
    pathSoFar, includeReverseComplement) const] *)
Fixpoint leadsOnlyToNode (fuel : nat) (g : AssemblyGraph) (this : EdgePtr) (forward : bool)
    (stepsRemaining : Z) (target : NodePtr) (pathSoFar : list NodePtr)
    (includeReverseComplement : bool) : option bool :=
  match fuel with
  | O => None
  | S fuel' =>
      let nextNode := nextNodeOf g forward this in
      let pathSoFar := pathSoFar ++ [nextNode] in
      if (nextNode =? nth 0 pathSoFar 0%nat)%nat then Some false
      else if (nextNode =? target)%nat then Some true
      else if includeReverseComplement
              && (getReverseComplement (nodeAt g nextNode) =? target)%nat then Some true
      else
        let stepsRemaining := stepsRemaining - 1 in
        if stepsRemaining =? 0 then Some false
        else
          let nextEdges := findNextEdgesInPath g nextNode forward in
          match nextEdges with
          | [] => Some false
          | _ :: _ =>
              leadsOnlyToNode_loop
                (fun nextEdge =>
                   leadsOnlyToNode fuel' g nextEdge forward stepsRemaining target
                     pathSoFar includeReverseComplement)
                g forward pathSoFar nextEdges
          end
  end.

(** The nodes an edge of the graph can lead to: the two ends of every edge of
    the arena (and of the default edge). *)
Definition graphNodes (g : AssemblyGraph) : list NodePtr :=
  nodup Nat.eq_dec
    (flat_map (fun e => [m_startingNode e; m_endingNode e]) (nullEdge :: g_edges g)).

(** The recursion of both traversals enters a node only while it occurs fewer
    than twice in the path, so its depth never exceeds twice the number of
    nodes; with this much fuel the calls below always run to completion (see
    [tracePaths_total] and [leadsOnlyToNode_total]). *)
Definition traversalFuel (g : AssemblyGraph) : nat :=
  S (2 * List.length (graphNodes g)).

(** [edge->tracePaths(forward, stepsRemaining, &allPaths, startingNode)]: the
    enumeration as it is started, with no paths collected and the empty path
    so far. *)
Definition tracePaths_run (g : AssemblyGraph) (this : EdgePtr) (forward : bool)
    (stepsRemaining : Z) (startingNode : NodePtr) : option (list (list NodePtr)) :=
  tracePaths (traversalFuel g) g this forward stepsRemaining [] startingNode [].

(** [edge->leadsOnlyToNode(forward, stepsRemaining, target, pathSoFar,
    includeReverseComplement)]; the search is started with the origin of the
    traversal as the one node of [pathSoFar]. *)
Definition leadsOnlyToNode_run (g : AssemblyGraph) (this : EdgePtr) (forward : bool)
    (stepsRemaining : Z) (target : NodePtr) (pathSoFar : list NodePtr)
    (includeReverseComplement : bool) : option bool :=
  leadsOnlyToNode (traversalFuel g) g this forward stepsRemaining
    target pathSoFar includeReverseComplement.

(** ** Query-path scorer (querypath.cpp) *)

(** C++ [double]: IEEE-754 binary64. *)
Definition double := float.

(** [std::numeric_limits<double>::max()] *)
Definition DBL_MAX : double := 0x1.fffffffffffffp+1023%float.

(** The conversion of an [int] to [double], exact on the 32-bit range. *)
Definition double_of_int (z : Z) : double :=
  if z <? 0 then PrimFloat.opp (PrimFloat.of_uint63 (Uint63.of_Z (- z)))
  else PrimFloat.of_uint63 (Uint63.of_Z z).

(** [class SciNot]: a coefficient and a base-10 exponent. *)
Record SciNot : Type := mkSciNot {
  getCoefficient : double;
  getExponent : Z
}.

(** [enum SequenceType] (program/globals.h). *)
Inductive SequenceType : Type :=
| NUCLEOTIDE
| PROTEIN
| EITHER_NUCLEOTIDE_OR_PROTEIN.

(** [class Hit]: the fields read by the scorer. *)
Record Hit : Type := mkHit {
  m_node : NodePtr;
  m_nodeStart : Z;
  m_nodeEnd : Z;
  m_queryStart : Z;
  m_queryEnd : Z;
  m_percentIdentity : double;
  m_alignmentLength : Z;
  m_numberMismatches : Z;
  m_numberGapOpens : Z;
  m_eValue : SciNot
}.

(** [class Query]: its hits in insertion order, its length and its type. *)
Record Query : Type := mkQuery {
  getHits : list Hit;
  q_length : Z;
  getSequenceType : SequenceType
}.

(** [class Path] as the scorer sees it: the nodes and the positions of the
    start and end locations in the first and the last node. *)
Record Path : Type := mkPath {
  nodes : list NodePtr;
  startPosition : Z;
  endPosition : Z
}.

(** [class QueryPath] *)
Record QueryPath : Type := mkQueryPath {
  m_path : Path;
  m_query : Query;
  m_hits : list Hit
}.

(** The functions of other classes that the scorer calls and whose code is
    outside the given sources; the scorer is modelled for any implementation
    of them.
      - [SciNot_make c e] is the constructor [SciNot(c, e)];
      - [SciNot_power], [SciNot_lt], [SciNot_ne] are [SciNot::power],
        [operator<] and [operator!=];
      - [Path_getLength] is [Path::getLength];
      - [Hit_getNodeLength] is [Hit::getNodeLength];
      - [Query_fractionCoveredByHits] is [Query::fractionCoveredByHits]. *)
Record Collaborators : Type := mkCollaborators {
  SciNot_make : double -> Z -> SciNot;
  SciNot_power : SciNot -> double -> SciNot;
  SciNot_lt : SciNot -> SciNot -> bool;
  SciNot_ne : SciNot -> SciNot -> bool;
  Path_getLength : Path -> Z;
  Hit_getNodeLength : Hit -> Z;
  Query_fractionCoveredByHits : Query -> list Hit -> double
}.

(** The test and the bookkeeping done for one hit in the inner loop of the
    constructor. The state is [m_hits] and [previousHit]. *)
Definition admitHit (path : Path) (i : nat) (st : list Hit * option Hit) (hit : Hit)
  : list Hit * option Hit :=
  let '(hits, previousHit) := st in
  if (negb (i =? 0)%nat || (m_nodeStart hit >=? startPosition path))
     && (negb (i =? List.length (nodes path) - 1)%nat || (m_nodeEnd hit <=? endPosition path))
  then
    if match previousHit with
       | None => true
       | Some previous => m_queryStart hit >? m_queryStart previous
       end
    then (hits ++ [hit], Some hit)
    else (hits, previousHit)
  else (hits, previousHit).

(** The hits of the query on one node, in the order of the query. *)
Definition hitsThisNode (query : Query) (node : NodePtr) : list Hit :=
  List.filter (fun queryHit => (m_node queryHit =? node)%nat) (getHits query).

(** One iteration of the outer loop, for the node at index [i]. [sort] is the
    [std::sort] by [m_queryStart]; the order it gives to hits of equal
    [m_queryStart] is unspecified, so it is a parameter. *)
Definition admitNode (sort : list Hit -> list Hit) (path : Path) (query : Query)
    (st : list Hit * option Hit) (i : nat) : list Hit * option Hit :=
  let node := nth i (nodes path) 0%nat in
  fold_left (admitHit path i) (sort (hitsThisNode query node)) st.

(** [QueryPath::QueryPath(Path path, Query *query)] *)
Definition QueryPath_new (sort : list Hit -> list Hit) (path : Path) (query : Query)
  : QueryPath :=
  let st := fold_left (admitNode sort path query)
              (seq 0 (List.length (nodes path))) ([], None) in
  mkQueryPath path query (fst st).

(** An instance of [std::sort] with the comparison
    [a->m_queryStart < b->m_queryStart]: insertion sort. *)
Fixpoint insertHit (h : Hit) (l : list Hit) : list Hit :=
  match l with
  | [] => [h]
  | x :: rest => if m_queryStart h <? m_queryStart x then h :: l else x :: insertHit h rest
  end.

(** Insertion of the hits one by one, from the last to the first. *)
Definition sortByQueryStart (l : list Hit) : list Hit :=
  fold_right insertHit [] l.

(** [double QueryPath::getMeanHitPercIdentity() const] *)
Definition getMeanHitPercIdentity (qp : QueryPath) : double :=
  let '(totalHitLength, sum) :=
    fold_left
      (fun '(totalHitLength, sum) hit =>
         let hitLength := m_alignmentLength hit in
         let hitIdentity := m_percentIdentity hit in
         (totalHitLength + hitLength, (sum + hitIdentity * double_of_int hitLength)%float))
      (m_hits qp) (0, 0%float) in
  if totalHitLength =? 0 then 0%float else (sum / double_of_int totalHitLength)%float.

(** The common tail of [getHitOverlap]. *)
Definition spanOverlap (hit1Start hit1End hit2Start hit2End : Z) : Z :=
  let overlap := Z.min hit1End hit2End - Z.max hit1Start hit2Start in
  if overlap >? 0 then overlap else 0.

(** [int QueryPath::getHitOverlap(const Hit * hit1, const Hit * hit2) const] *)
Definition getHitOverlap (g : AssemblyGraph) (hit1 hit2 : Hit) : Z :=
  let possibleEdge := (m_node hit1, m_node hit2) in
  if (m_node hit1 =? m_node hit2)%nat then
    spanOverlap (m_nodeStart hit1 - 1) (m_nodeEnd hit1) (m_nodeStart hit2 - 1) (m_nodeEnd hit2)
  else
    match m_deBruijnGraphEdges g !! possibleEdge with
    | Some edge =>
        let overlap := getOverlap (edgeAt g edge) in
        let hit1NodeLen := getLength (nodeAt g (m_node hit1)) in
        spanOverlap (m_nodeStart hit1) (m_nodeEnd hit1)
          (m_nodeStart hit2 + hit1NodeLen - overlap)
          (m_nodeEnd hit2 + hit1NodeLen - overlap)
    | None => 0
    end.

(** The default of [m_hits[i]]; the loop below reads inside the vector only. *)
Definition nullHit : Hit :=
  mkHit 0%nat 0 0 0 0 0%float 0 0 0 (mkSciNot 0%float 0).

(** The body of the loop of [getEvalueProduct] for index [i]; the state is
    [coefficientProduct] and [exponentSum]. *)
Definition evalueStep (X : Collaborators) (g : AssemblyGraph) (hits : list Hit)
    (st : double * Z) (i : nat) : double * Z :=
  let '(coefficientProduct, exponentSum) := st in
  let thisHit := nth i hits nullHit in
  let thisHitEValue := m_eValue thisHit in
  let eValueLenToRemove := 0%float in
  let eValueLenToRemove :=
    if (0 <? i)%nat then
      let previousHit := nth (i - 1) hits nullHit in
      let overlap := getHitOverlap g previousHit thisHit in
      if overlap >? 0 then (eValueLenToRemove + double_of_int overlap / 2)%float
      else eValueLenToRemove
    else eValueLenToRemove in
  let eValueLenToRemove :=
    if (i <? List.length hits - 1)%nat then
      let nextHit := nth (i + 1) hits nullHit in
      let overlap := getHitOverlap g thisHit nextHit in
      if overlap >? 0 then (eValueLenToRemove + double_of_int overlap / 2)%float
      else eValueLenToRemove
    else eValueLenToRemove in
  let thisHitEValue :=
    if PrimFloat.ltb 0%float eValueLenToRemove then
      let thisHitLength := Hit_getNodeLength X thisHit in
      let reduction :=
        ((double_of_int thisHitLength - eValueLenToRemove) / double_of_int thisHitLength)%float in
      SciNot_power X thisHitEValue reduction
    else thisHitEValue in
  ((coefficientProduct * getCoefficient thisHitEValue)%float,
   exponentSum + getExponent thisHitEValue).

(** [SciNot QueryPath::getEvalueProduct() const] *)
Definition getEvalueProduct (X : Collaborators) (g : AssemblyGraph) (qp : QueryPath) : SciNot :=
  let '(coefficientProduct, exponentSum) :=
    fold_left (evalueStep X g (m_hits qp)) (seq 0 (List.length (m_hits qp))) (1%float, 0) in
  SciNot_make X coefficientProduct exponentSum.

(** [m_hits.front()] and [m_hits.back()]: undefined on an empty vector,
    which is the result [None]. *)
Definition front (hits : list Hit) : option Hit := hd_error hits.
Definition back (hits : list Hit) : option Hit :=
  match hits with
  | [] => None
  | h :: rest => Some (last rest h)
  end.

(** [int QueryPath::getHitQueryLength() const] *)
Definition getHitQueryLength (qp : QueryPath) : option Z :=
  match front (m_hits qp), back (m_hits qp) with
  | Some first, Some final =>
      let queryStart := m_queryStart first in
      let queryEnd := m_queryEnd final in
      let hitQueryLength := queryEnd - queryStart + 1 in
      Some (match getSequenceType (m_query qp) with
            | PROTEIN => hitQueryLength * 3
            | _ => hitQueryLength
            end)
  | _, _ => None
  end.

(** [double QueryPath::getRelativeLengthDiscrepancy() const] *)
Definition getRelativeLengthDiscrepancy (X : Collaborators) (qp : QueryPath) : option double :=
  match m_hits qp with
  | [] => Some DBL_MAX
  | _ :: _ =>
      match getHitQueryLength qp with
      | Some hitQueryLength =>
          let discrepancy := Path_getLength X (m_path qp) - hitQueryLength in
          Some (double_of_int discrepancy / double_of_int hitQueryLength)%float
      | None => None
      end
  end.

(** [double QueryPath::getRelativePathLength() const] *)
Definition getRelativePathLength (X : Collaborators) (qp : QueryPath) : option double :=
  match getHitQueryLength qp with
  | Some hitQueryLength =>
      Some (double_of_int (Path_getLength X (m_path qp)) / double_of_int hitQueryLength)%float
  | None => None
  end.

(** [int QueryPath::getAbsolutePathLengthDifference() const] *)
Definition getAbsolutePathLengthDifference (X : Collaborators) (qp : QueryPath) : option Z :=
  match getHitQueryLength qp with
  | Some hitQueryLength => Some (Path_getLength X (m_path qp) - hitQueryLength)
  | None => None
  end.

(** [int QueryPath::queryStart() const] and [queryEnd() const] *)
Definition queryStart (qp : QueryPath) : Z :=
  match front (m_hits qp) with
  | None => -1
  | Some h => m_queryStart h
  end.

Definition queryEnd (qp : QueryPath) : Z :=
  match back (m_hits qp) with
  | None => -1
  | Some h => m_queryEnd h
  end.

(** [double QueryPath::getPathQueryCoverage() const] *)
Definition getPathQueryCoverage (qp : QueryPath) : double :=
  match m_hits qp with
  | [] => 0%float
  | first :: rest =>
      let final := last rest first in
      let queryStart := m_queryStart first in
      let queryEnd := m_queryEnd final in
      let queryLength := q_length (m_query qp) in
      let notIncluded := queryStart - 1 in
      let notIncluded := notIncluded + (queryLength - queryEnd) in
      (1 - double_of_int notIncluded / double_of_int queryLength)%float
  end.

(** [double QueryPath::getHitsQueryCoverage() const] *)
Definition getHitsQueryCoverage (X : Collaborators) (qp : QueryPath) : double :=
  Query_fractionCoveredByHits X (m_query qp) (m_hits qp).

(** The comparisons [!=], [<] and [>] of two doubles. *)
Definition double_ne (a b : double) : bool := negb (PrimFloat.eqb a b).
Definition double_lt (a b : double) : bool := PrimFloat.ltb a b.
Definition double_gt (a b : double) : bool := PrimFloat.ltb b a.

(** [bool QueryPath::operator<(QueryPath const &other) const]; the result is
    [None] if a call it makes is undefined. *)
Definition QueryPath_lt (X : Collaborators) (g : AssemblyGraph) (this other : QueryPath)
  : option bool :=
  let aEValueProduct := getEvalueProduct X g this in
  let bEValueProduct := getEvalueProduct X g other in
  if SciNot_ne X aEValueProduct bEValueProduct
  then Some (SciNot_lt X aEValueProduct bEValueProduct)
  else
    let aMeanPercIdentity := getMeanHitPercIdentity this in
    let bMeanPercIdentity := getMeanHitPercIdentity other in
    if double_ne aMeanPercIdentity bMeanPercIdentity
    then Some (double_gt aMeanPercIdentity bMeanPercIdentity)
    else
      match getRelativeLengthDiscrepancy X this, getRelativeLengthDiscrepancy X other with
      | Some a, Some b =>
          let aLengthDiscrepancy := PrimFloat.abs a in
          let bLengthDiscrepancy := PrimFloat.abs b in
          if double_ne aLengthDiscrepancy bLengthDiscrepancy
          then Some (double_lt aLengthDiscrepancy bLengthDiscrepancy)
          else
            let aHitsQueryCoverage := getHitsQueryCoverage X this in
            let bHitsQueryCoverage := getHitsQueryCoverage X other in
            if double_ne aHitsQueryCoverage bHitsQueryCoverage
            then Some (double_gt aHitsQueryCoverage bHitsQueryCoverage)
            else Some false
      | _, _ => None
      end.

(** ** Vocabulary of the properties *)

(** The length of the shorter of the two nodes of an edge. *)
Definition shorterNodeLen (g : AssemblyGraph) (e : DeBruijnEdge) : Z :=
  Z.min (getLength (nodeAt g (m_startingNode e))) (getLength (nodeAt g (m_endingNode e))).

(** The candidate range of the specification:
    [[min(minCandidate, shorterNodeLen), min(maxCandidate, shorterNodeLen)]]. *)
Definition inCandidateRange (s : Settings) (g : AssemblyGraph) (e : DeBruijnEdge) (k : Z) : Prop :=
  Z.min (minAutoFindEdgeOverlap s) (shorterNodeLen g e) <= k
  <= Z.min (maxAutoFindEdgeOverlap s) (shorterNodeLen g e).

(** The stored length of both nodes of an edge is the length of their
    sequence, as after [setSequence]. *)
Definition lengthsAgree (g : AssemblyGraph) (e : DeBruijnEdge) : Prop :=
  getLength (nodeAt g (m_startingNode e))
  = Z.of_nat (List.length (m_sequence (nodeAt g (m_startingNode e))))
  /\ getLength (nodeAt g (m_endingNode e))
     = Z.of_nat (List.length (m_sequence (nodeAt g (m_endingNode e)))).

(** The last [k] bases of the starting node are the first [k] bases of the
    ending node. *)
Definition lastBasesAreFirstBases (g : AssemblyGraph) (e : DeBruijnEdge) (k : nat) : Prop :=
  let s := m_sequence (nodeAt g (m_startingNode e)) in
  let t := m_sequence (nodeAt g (m_endingNode e)) in
  skipn (List.length s - k) s = firstn k t.

(** How far candidate [k] is from [t] in the scanning order of the search
    loop, which runs upwards and wraps from [max] to [min]. *)
Definition cyclicDistance (min max t k : Z) : Z :=
  if t <=? k then k - t else k - t + (max - min + 1).

(** The room left in a path: how many more visits the nodes of [V] can take
    before each of them occurs twice. *)
Fixpoint slack (V : list NodePtr) (p : list NodePtr) : nat :=
  match V with
  | [] => 0%nat
  | v :: V' => ((2 - timesNodeInPath v p) + slack V' p)%nat
  end.

(** The invariant of the accumulated path: no node occurs more than twice. *)
Definition atMostTwice (p : list NodePtr) : Prop :=
  forall n, (timesNodeInPath n p <= 2)%nat.

(** The success test of [leadsOnlyToNode] at a node: the node is the target
    or, when reverse complements are included, its reverse complement is. *)
Definition reachesTarget (g : AssemblyGraph) (target : NodePtr)
    (includeReverseComplement : bool) (n : NodePtr) : bool :=
  (n =? target)%nat
  || (includeReverseComplement && (getReverseComplement (nodeAt g n) =? target)%nat).

(** [loopsBack g forward origin target rc w]: the edges [w] form a directed
    path in the traversal direction (each edge is among the next edges of the
    node its predecessor leads to) that ends in [origin] and reaches neither
    [origin] nor the target before its last hop. *)
Inductive loopsBack (g : AssemblyGraph) (forward : bool) (origin target : NodePtr)
    (includeReverseComplement : bool) : list EdgePtr -> Prop :=
| loopsBack_last (e : EdgePtr) :
    nextNodeOf g forward e = origin ->
    loopsBack g forward origin target includeReverseComplement [e]
| loopsBack_hop (e e' : EdgePtr) (w : list EdgePtr) :
    nextNodeOf g forward e <> origin ->
    reachesTarget g target includeReverseComplement (nextNodeOf g forward e) = false ->
    In e' (findNextEdgesInPath g (nextNodeOf g forward e) forward) ->
    loopsBack g forward origin target includeReverseComplement (e' :: w) ->
    loopsBack g forward origin target includeReverseComplement (e :: e' :: w).

(** Taking the reverse complement of a node flips its strand sign. *)
Definition signFlips (g : AssemblyGraph) (n : DeBruijnNode) : Prop :=
  isPositiveNode (nodeAt g (getReverseComplement n)) = isNegativeNode n
  /\ isNegativeNode (nodeAt g (getReverseComplement n)) = isPositiveNode n.

(** The invariant of the data model for an edge and its reverse-complement
    partner: the partner runs from the reverse complement of the ending node
    to the reverse complement of the starting node, and the reverse
    complements of the two ends carry the opposite signs. *)
Definition strandFlipped (g : AssemblyGraph) (this : EdgePtr) : Prop :=
  let e := edgeAt g this in
  let e' := edgeAt g (m_reverseComplement e) in
  let startingNode := nodeAt g (m_startingNode e) in
  let endingNode := nodeAt g (m_endingNode e) in
  m_startingNode e' = getReverseComplement endingNode
  /\ m_endingNode e' = getReverseComplement startingNode
  /\ signFlips g startingNode
  /\ signFlips g endingNode.

(** The order of the hit chain: [a] starts earlier in the query than [b]. *)
Definition queryStartLt (a b : Hit) : Prop := m_queryStart a < m_queryStart b.

(** What the constructor checked when it admitted [h]: [h] is a hit of the
    query on the node at some index [i] of the path, inside the start bound if
    [i] is the first index and inside the end bound if [i] is the last. *)
Definition admittedAt (path : Path) (query : Query) (h : Hit) : Prop :=
  In h (getHits query)
  /\ exists i, (i < List.length (nodes path))%nat
       /\ nth i (nodes path) 0%nat = m_node h
       /\ (i = 0%nat -> startPosition path <= m_nodeStart h)
       /\ (i = (List.length (nodes path) - 1)%nat -> m_nodeEnd h <= endPosition path).

(** The invariant of the two loops of the constructor. *)
Definition ctorInvariant (path : Path) (query : Query) (st : list Hit * option Hit) : Prop :=
  StronglySorted queryStartLt (fst st)
  /\ (forall h, In h (fst st) -> admittedAt path query h)
  /\ (forall h, In h (fst st) ->
        exists previous, snd st = Some previous /\ m_queryStart h <= m_queryStart previous).

(** The ranking in the words of the spec: four keys are compared in turn,
    each in its direction, and the first key that differs decides. *)
Inductive Verdict : Type :=
| Better
| Worse
| Tie.

(** One key: the two values tie when they do not differ; otherwise the first
    path is better exactly when [better] holds. *)
Definition compareKey {A : Type} (differ better : A -> A -> bool) (a b : A) : Verdict :=
  if differ a b then (if better a b then Better else Worse) else Tie.

(** The next key decides only on a tie. *)
Definition orElse (first next : Verdict) : Verdict :=
  match first with
  | Tie => next
  | _ => first
  end.

(** The four keys in the order and the directions of the spec. *)
Definition rankingVerdict (X : Collaborators) (g : AssemblyGraph) (a b : QueryPath)
    (aDiscrepancy bDiscrepancy : double) : Verdict :=
  (* evalueProduct, ascending *)
  orElse (compareKey (SciNot_ne X) (SciNot_lt X)
            (getEvalueProduct X g a) (getEvalueProduct X g b))
  (* meanPercentIdentity, descending *)
  (orElse (compareKey double_ne double_gt
             (getMeanHitPercIdentity a) (getMeanHitPercIdentity b))
  (* |relativeLengthDiscrepancy|, ascending *)
  (orElse (compareKey double_ne double_lt
             (PrimFloat.abs aDiscrepancy) (PrimFloat.abs bDiscrepancy))
  (* hitsQueryCoverage, descending *)
  (orElse (compareKey double_ne double_gt
             (getHitsQueryCoverage X a) (getHitsQueryCoverage X b))
  (* otherwise equal *)
     Tie))).

(** The answer of better-than: true for [Better] only. *)
Definition isBetter (v : Verdict) : bool :=
  match v with
  | Better => true
  | _ => false
  end.

(** ** Fixtures *)

(** Two nodes "GGACG" and "ACGTT" joined by one edge, and two nodes "ACG",
    "ACG" joined by another. *)
Definition overlapGraph : AssemblyGraph :=
  mkGraph
    [ mkNode "1+" (list_ascii_of_string "GGACG") 5 0%nat [0%nat];
      mkNode "2+" (list_ascii_of_string "ACGTT") 5 1%nat [0%nat];
      mkNode "3+" (list_ascii_of_string "ACG") 3 2%nat [1%nat];
      mkNode "4+" (list_ascii_of_string "ACG") 3 3%nat [1%nat] ]
    [ mkEdge 0%nat 1%nat 0%nat UNKNOWN_OVERLAP 0;
      mkEdge 2%nat 3%nat 1%nat UNKNOWN_OVERLAP 0 ]
    ∅.

(** The simple cycle A -> B -> C -> A: nodes 0, 1, 2 and edges 0, 1, 2; every
    node lists its entering and its leaving edge. *)
Definition cycle3 : AssemblyGraph :=
  mkGraph
    [ mkNode "A+" [] 0 0%nat [0%nat; 2%nat];
      mkNode "B+" [] 0 1%nat [0%nat; 1%nat];
      mkNode "C+" [] 0 2%nat [1%nat; 2%nat] ]
    [ mkEdge 0%nat 1%nat 0%nat UNKNOWN_OVERLAP 0;
      mkEdge 1%nat 2%nat 1%nat UNKNOWN_OVERLAP 0;
      mkEdge 2%nat 0%nat 2%nat UNKNOWN_OVERLAP 0 ]
    ∅.

(** The cycle of [cycle3] with a tail: A -> B -> C -> A and C -> D, where D
    (node 3) is a dead end. *)
Definition cycle3tail : AssemblyGraph :=
  mkGraph
    [ mkNode "A+" [] 0 0%nat [0%nat; 2%nat];
      mkNode "B+" [] 0 1%nat [0%nat; 1%nat];
      mkNode "C+" [] 0 2%nat [1%nat; 3%nat; 2%nat];
      mkNode "D+" [] 0 3%nat [3%nat] ]
    [ mkEdge 0%nat 1%nat 0%nat UNKNOWN_OVERLAP 0;
      mkEdge 1%nat 2%nat 1%nat UNKNOWN_OVERLAP 0;
      mkEdge 2%nat 0%nat 2%nat UNKNOWN_OVERLAP 0;
      mkEdge 2%nat 3%nat 3%nat UNKNOWN_OVERLAP 0 ]
    ∅.

(** A cycle beside the way to the target: O -> A -> T and O -> B -> O, with
    O, A, T, B the nodes 0, 1, 2, 3 and the edges numbered in this order. *)
Definition sideCycleGraph : AssemblyGraph :=
  mkGraph
    [ mkNode "O+" [] 0 0%nat [0%nat; 2%nat; 3%nat];
      mkNode "A+" [] 0 1%nat [0%nat; 1%nat];
      mkNode "T+" [] 0 2%nat [1%nat];
      mkNode "B+" [] 0 3%nat [2%nat; 3%nat] ]
    [ mkEdge 0%nat 1%nat 0%nat UNKNOWN_OVERLAP 0;
      mkEdge 1%nat 2%nat 1%nat UNKNOWN_OVERLAP 0;
      mkEdge 0%nat 3%nat 2%nat UNKNOWN_OVERLAP 0;
      mkEdge 3%nat 0%nat 3%nat UNKNOWN_OVERLAP 0 ]
    ∅.

(** A double-stranded graph: nodes 1+, 1-, 2+, 2- (0..3) and 3+, 3- (4, 5);
    edges 1+ -> 2+ (0) with partner 2- -> 1- (1), 1+ -> 2- (2) with partner
    2+ -> 1- (3), and the edge 3+ -> 3- (4), which is its own partner. *)
Definition strandGraph : AssemblyGraph :=
  mkGraph
    [ mkNode "1+" [] 0 1%nat [0%nat; 2%nat];
      mkNode "1-" [] 0 0%nat [1%nat; 3%nat];
      mkNode "2+" [] 0 3%nat [0%nat; 3%nat];
      mkNode "2-" [] 0 2%nat [1%nat; 2%nat];
      mkNode "3+" [] 0 5%nat [4%nat];
      mkNode "3-" [] 0 4%nat [4%nat] ]
    [ mkEdge 0%nat 2%nat 1%nat UNKNOWN_OVERLAP 0;
      mkEdge 3%nat 1%nat 0%nat UNKNOWN_OVERLAP 0;
      mkEdge 0%nat 3%nat 3%nat UNKNOWN_OVERLAP 0;
      mkEdge 2%nat 1%nat 2%nat UNKNOWN_OVERLAP 0;
      mkEdge 4%nat 5%nat 4%nat UNKNOWN_OVERLAP 0 ]
    ∅.

(** Modelled from the spec: the constructor of [SciNot] renormalises the pair
    so that the coefficient lies in [1, 10) (the exponent of a zero
    coefficient is 0). [fuel] bounds the number of shifts; a binary64 value
    needs fewer than 700. *)
Fixpoint normaliseDown (fuel : nat) (c : double) (e : Z) : double * Z :=
  match fuel with
  | O => (c, e)
  | S fuel' =>
      if PrimFloat.leb 10%float (PrimFloat.abs c)
      then normaliseDown fuel' (c / 10)%float (e + 1)
      else (c, e)
  end.

Fixpoint normaliseUp (fuel : nat) (c : double) (e : Z) : double * Z :=
  match fuel with
  | O => (c, e)
  | S fuel' =>
      if PrimFloat.ltb (PrimFloat.abs c) 1%float
      then normaliseUp fuel' (c * 10)%float (e - 1)
      else (c, e)
  end.

Definition specSciNot_make (c : double) (e : Z) : SciNot :=
  if PrimFloat.eqb c 0%float then mkSciNot c 0
  else
    let '(c1, e1) := normaliseDown 700 c e in
    let '(c2, e2) := normaliseUp 700 c1 e1 in
    mkSciNot c2 e2.

(** Modelled from the spec: a [SciNot] stands for coefficient x 10^exponent
    and two of them are compared by that value; on normalised pairs this is
    the comparison of the signs, then of the exponents, then of the
    coefficients. *)
Definition specSciNot_sign (a : SciNot) : Z :=
  if PrimFloat.ltb (getCoefficient a) 0%float then -1
  else if PrimFloat.ltb 0%float (getCoefficient a) then 1
  else 0.

Definition specSciNot_lt (a b : SciNot) : bool :=
  if specSciNot_sign a <? specSciNot_sign b then true
  else if specSciNot_sign b <? specSciNot_sign a then false
  else if specSciNot_sign a =? 0 then false
  else if specSciNot_sign a =? 1 then
    (getExponent a <? getExponent b)
    || ((getExponent a =? getExponent b)
        && PrimFloat.ltb (getCoefficient a) (getCoefficient b))
  else
    (getExponent b <? getExponent a)
    || ((getExponent a =? getExponent b)
        && PrimFloat.ltb (getCoefficient a) (getCoefficient b)).

Definition specSciNot_ne (a b : SciNot) : bool :=
  negb (PrimFloat.eqb (getCoefficient a) (getCoefficient b)
        && (getExponent a =? getExponent b)).

(** The collaborators used by the examples. The spec-modelled [SciNot]
    operations above; [Hit::getNodeLength] as the length of the node span of
    the hit; the path length and the covered fraction of the query are those
    of the worked example of the spec (a path of 140 bases, a query covered
    entirely). [SciNot::power] needs a real power function; the examples that
    evaluate the scorer never reach it, and [power] is left to the caller. *)
Definition exampleCollaborators (power : SciNot -> double -> SciNot) : Collaborators :=
  mkCollaborators specSciNot_make power specSciNot_lt specSciNot_ne
    (fun _ => 140) (fun h => m_nodeEnd h - m_nodeStart h + 1) (fun _ _ => 1%float).

(** The worked example of the spec: nodes 1+ (100 bases) and 2+ (50 bases),
    the edge 1+ -> 2+ with overlap 10, a hit on 1+ with node span [81,100] and
    query span [1,20], and a hit on 2+ with node span [1,30] and query span
    [21,50]. *)
Definition exampleGraph : AssemblyGraph :=
  mkGraph
    [ mkNode "1+" (repeat "X"%char 100) 100 0%nat [0%nat];
      mkNode "2+" (repeat "X"%char 50) 50 1%nat [0%nat] ]
    [ mkEdge 0%nat 1%nat 0%nat EXACT_OVERLAP 10 ]
    {[ (0%nat, 1%nat) := 0%nat ]}.

Definition exampleHit1 : Hit :=
  mkHit 0%nat 81 100 1 20 100%float 20 0 0 (mkSciNot 1%float (-50)).
Definition exampleHit2 : Hit :=
  mkHit 1%nat 1 30 21 50 100%float 30 0 0 (mkSciNot 1%float (-10)).
Definition exampleQuery : Query :=
  mkQuery [exampleHit1; exampleHit2] 50 NUCLEOTIDE.
Definition examplePath : Path := mkPath [0%nat; 1%nat] 1 50.

(** A query whose hit on 2+ starts earlier in the query than its hit on 1+,
    and a path over 1+ and 2+ that starts at base 90 of 1+. *)
Definition laterHit1 : Hit :=
  mkHit 0%nat 81 100 21 40 100%float 20 0 0 (mkSciNot 1%float (-50)).
Definition earlierHit2 : Hit :=
  mkHit 1%nat 1 30 1 20 100%float 30 0 0 (mkSciNot 1%float (-10)).
Definition reversedQuery : Query :=
  mkQuery [laterHit1; earlierHit2] 50 NUCLEOTIDE.
Definition clippedPath : Path := mkPath [0%nat; 1%nat] 90 50.

(** ** Further functions of the modelled classes *)

(** *** DeBruijnNode (debruijnnode.h) *)

(** [QString::left(n)] and [QString::right(n)]: the [n] leftmost (rightmost)
    characters; the entire string if [n] is negative or not smaller than the
    size of the string. *)
Definition QString_left (s : string) (n : Z) : string :=
  if (n <? 0) || (Z.of_nat (String.length s) <=? n) then s
  else substring 0 (Z.to_nat n) s.

Definition QString_right (s : string) (n : Z) : string :=
  if (n <? 0) || (Z.of_nat (String.length s) <=? n) then s
  else substring (String.length s - Z.to_nat n) (Z.to_nat n) s.

(** [QString getNameWithoutSign() const {return m_name.left(m_name.length() - 1);}] *)
Definition getNameWithoutSign (n : DeBruijnNode) : string :=
  QString_left (m_name n) (Z.of_nat (String.length (m_name n)) - 1).

(** [QString getSign() const
      {if (m_name.length() > 0) return m_name.right(1); else return "+";}] *)
Definition getSign (n : DeBruijnNode) : string :=
  if Z.of_nat (String.length (m_name n)) >? 0 then QString_right (m_name n) 1
  else "+"%string.

(** [void setSequence(QByteArray newSeq)
      {m_sequence = Sequence(newSeq); m_length = m_sequence.size();}].
    [Sequence_of] is the constructor [Sequence(QByteArray)], whose code is
    outside the given sources: the bytes that the sequence built from
    [newSeq] holds. *)
Definition setSequence (Sequence_of : list ascii -> list ascii)
    (n : DeBruijnNode) (newSeq : list ascii) : DeBruijnNode :=
  mkNode (m_name n) (Sequence_of newSeq) (Z.of_nat (List.length (Sequence_of newSeq)))
    (n_reverseComplement n) (m_edges n).

(** [p->setSequence(newSeq)] for a node [p] of the arena: the graph after
    the call. *)
Definition Node_setSequence (Sequence_of : list ascii -> list ascii)
    (g : AssemblyGraph) (p : NodePtr) (newSeq : list ascii) : AssemblyGraph :=
  mkGraph (<[p := setSequence Sequence_of (nodeAt g p) newSeq]> (g_nodes g))
    (g_edges g) (m_deBruijnGraphEdges g).

(** [start->setSequence(s); end->setSequence(t);] for the two nodes of an
    edge. *)
Definition setSequences (Sequence_of : list ascii -> list ascii)
    (g : AssemblyGraph) (this : DeBruijnEdge) (s t : list ascii) : AssemblyGraph :=
  Node_setSequence Sequence_of
    (Node_setSequence Sequence_of g (m_startingNode this) s) (m_endingNode this) t.

(** *** DeBruijnEdge (debruijnedge.cpp) *)

(** [DeBruijnNode * DeBruijnEdge::getOtherNode(const DeBruijnNode * node) const] *)
Definition getOtherNode (this : DeBruijnEdge) (node : NodePtr) : NodePtr :=
  if (node =? m_startingNode this)%nat then m_endingNode this else m_startingNode this.

(** [bool DeBruijnEdge::edgeIsVisible() const]. [doubleMode] is
    [g_settings->doubleMode], and [isDrawn p] is [p->isDrawn()], the [m_drawn]
    flag of the node at [p]. *)
Definition edgeIsVisible (doubleMode : bool) (isDrawn : NodePtr -> bool)
    (g : AssemblyGraph) (this : EdgePtr) : bool :=
  let e := edgeAt g this in
  if doubleMode then isDrawn (m_startingNode e) && isDrawn (m_endingNode e)
  else
    let drawEdge :=
      (isDrawn (m_startingNode e)
       || isDrawn (getReverseComplement (nodeAt g (m_startingNode e))))
      && (isDrawn (m_endingNode e)
          || isDrawn (getReverseComplement (nodeAt g (m_endingNode e)))) in
    if negb drawEdge then false
    else isPositiveEdge g this.

(** [QString::chop(1)]: the string without its last character. *)
Fixpoint chop1 (s : string) : string :=
  match s with
  | EmptyString => EmptyString
  | String _ EmptyString => EmptyString
  | String c rest => String c (chop1 rest)
  end.

(** [QString::operator<]: lexicographic comparison. *)
Definition QString_lt (a b : string) : bool :=
  match String.compare a b with
  | Lt => true
  | _ => false
  end.

(** [bool DeBruijnEdge::compareEdgePointers(const DeBruijnEdge * a,
    const DeBruijnEdge * b)]. [toLongLong] is [QString::toLongLong(&ok)], a
    function of the Qt library: [Some n] when the string is read as the
    number [n] ([ok] set), [None] otherwise. *)
Definition compareEdgePointers (toLongLong : string -> option Z)
    (g : AssemblyGraph) (a b : EdgePtr) : bool :=
  let aStart := getName (nodeAt g (m_startingNode (edgeAt g a))) in
  let bStart := getName (nodeAt g (m_startingNode (edgeAt g b))) in
  let aStartNoSign := chop1 aStart in
  let bStartNoSign := chop1 bStart in
  let aEnd := getName (nodeAt g (m_endingNode (edgeAt g a))) in
  let bEnd := getName (nodeAt g (m_endingNode (edgeAt g b))) in
  let aEndNoSign := chop1 aEnd in
  let bEndNoSign := chop1 bEnd in
  match toLongLong aStartNoSign, toLongLong bStartNoSign,
        toLongLong aEndNoSign, toLongLong bEndNoSign with
  | Some aStartNumber, Some bStartNumber, Some aEndNumber, Some bEndNumber =>
      if negb (aStartNumber =? bStartNumber) then aStartNumber <? bStartNumber
      else aEndNumber <? bEndNumber
  | _, _, _, _ => QString_lt aStart bStart
  end.

(** *** QueryPath (querypath.cpp) *)

(** [QueryPath::QueryPath(Path path, Query *query, std::vector<const Hit *> hits)] *)
Definition QueryPath_ofHits (path : Path) (query : Query) (hits : list Hit) : QueryPath :=
  mkQueryPath path query hits.

(** [int QueryPath::getTotalHitMismatches() const] *)
Definition getTotalHitMismatches (qp : QueryPath) : Z :=
  fold_left (fun total hit => total + m_numberMismatches hit) (m_hits qp) 0.

(** [int QueryPath::getTotalHitGapOpens() const] *)
Definition getTotalHitGapOpens (qp : QueryPath) : Z :=
  fold_left (fun total hit => total + m_numberGapOpens hit) (m_hits qp) 0.

(** ** BlastSearch (graphsearch/blast/blastsearch.cpp) *)

(** The signals that the object emits. *)
Inductive Signal : Type :=
| finishedDbBuild (error : string)
| finishedSearch (error : string)
| buildWorkerCancel
| searchWorkerCancel.

(** The fields of [class BlastSearch] and of its base class that the
    modelled functions use. Of the two worker pointers only whether they are
    null matters: [true] stands for a worker object, [false] for [nullptr].
    [emitted] is the list of the signals emitted so far, the latest last. *)
Record BlastSearch : Type := mkBlastSearch {
  m_makeblastdbCommand : string;
  m_blastnCommand : string;
  m_tblastnCommand : string;
  m_lastError : string;
  m_buildDbWorker : bool;
  m_runSearchWorker : bool;
  emitted : list Signal
}.

(** What the functions call outside the given sources.
      - [findProgram name command] is [findProgram(name, &command)]: whether
        the program was found, and the command string after the call;
      - [buildBlastDatabase makeblastdb] is the run of a
        [BuildBlastDatabaseWorker] made with this command: its result and its
        [m_error];
      - [runBlastSearch blastn tblastn extraParameters] is the run of a
        [RunBlastSearchWorker] made with these arguments on the queries:
        its result and its [m_error]. *)
Record Environment : Type := mkEnvironment {
  findProgram : string -> string -> bool * string;
  buildBlastDatabase : string -> bool * string;
  runBlastSearch : string -> string -> string -> bool * string
}.

Definition set_lastError (this : BlastSearch) (e : string) : BlastSearch :=
  mkBlastSearch (m_makeblastdbCommand this) (m_blastnCommand this) (m_tblastnCommand this)
    e (m_buildDbWorker this) (m_runSearchWorker this) (emitted this).

Definition set_commands (this : BlastSearch) (makeblastdb blastn tblastn : string)
  : BlastSearch :=
  mkBlastSearch makeblastdb blastn tblastn
    (m_lastError this) (m_buildDbWorker this) (m_runSearchWorker this) (emitted this).

Definition set_buildDbWorker (this : BlastSearch) (w : bool) : BlastSearch :=
  mkBlastSearch (m_makeblastdbCommand this) (m_blastnCommand this) (m_tblastnCommand this)
    (m_lastError this) w (m_runSearchWorker this) (emitted this).

Definition set_runSearchWorker (this : BlastSearch) (w : bool) : BlastSearch :=
  mkBlastSearch (m_makeblastdbCommand this) (m_blastnCommand this) (m_tblastnCommand this)
    (m_lastError this) (m_buildDbWorker this) w (emitted this).

Definition emit (this : BlastSearch) (s : Signal) : BlastSearch :=
  mkBlastSearch (m_makeblastdbCommand this) (m_blastnCommand this) (m_tblastnCommand this)
    (m_lastError this) (m_buildDbWorker this) (m_runSearchWorker this) (emitted this ++ [s]).

Definition makeblastdbNotFound : string :=
  "Error: The program makeblastdb was not found.  Please install NCBI BLAST to use this feature.".
Definition blastnNotFound : string :=
  "Error: The program blastn was not found.  Please install NCBI BLAST to use this feature.".
Definition tblastnNotFound : string :=
  "Error: The program tblastn was not found.  Please install NCBI BLAST to use this feature.".

(** [bool BlastSearch::findTools()]: the result and the object after the call. *)
Definition findTools (E : Environment) (this : BlastSearch) : bool * BlastSearch :=
  let '(found, command) := findProgram E "makeblastdb" (m_makeblastdbCommand this) in
  let this := set_commands this command (m_blastnCommand this) (m_tblastnCommand this) in
  if negb found then (false, set_lastError this makeblastdbNotFound)
  else
    let '(found, command) := findProgram E "blastn" (m_blastnCommand this) in
    let this := set_commands this (m_makeblastdbCommand this) command (m_tblastnCommand this) in
    if negb found then (false, set_lastError this blastnNotFound)
    else
      let '(found, command) := findProgram E "tblastn" (m_tblastnCommand this) in
      let this := set_commands this (m_makeblastdbCommand this) (m_blastnCommand this) command in
      if negb found then (false, set_lastError this tblastnNotFound)
      else (true, this).

(** [QString BlastSearch::buildDatabase(const AssemblyGraph &graph)]: the
    returned string and the object after the call. *)
Definition buildDatabase (E : Environment) (this : BlastSearch) : string * BlastSearch :=
  let this := set_lastError this EmptyString in
  let '(found, this) := findTools E this in
  if negb found then (m_lastError this, this)
  else if m_buildDbWorker this then
    let this := set_lastError this "Building is already in progress" in
    (m_lastError this, this)
  else
    let this := set_buildDbWorker this true in
    let '(built, m_error) := buildBlastDatabase E (m_makeblastdbCommand this) in
    let this := if negb built then set_lastError this m_error else this in
    let this := set_buildDbWorker this false in
    let this := emit this (finishedDbBuild (m_lastError this)) in
    (m_lastError this, this).

(** [QString BlastSearch::doSearch(Queries &queries, QString extraParameters)] *)
Definition doSearch (E : Environment) (extraParameters : string) (this : BlastSearch)
  : string * BlastSearch :=
  let this := set_lastError this EmptyString in
  let '(found, this) := findTools E this in
  if negb found then (m_lastError this, this)
  else if m_runSearchWorker this then
    let this := set_lastError this "Search is already in progress" in
    (m_lastError this, this)
  else
    let this := set_runSearchWorker this true in
    let '(ran, m_error) :=
      runBlastSearch E (m_blastnCommand this) (m_tblastnCommand this) extraParameters in
    let this := if negb ran then set_lastError this m_error else this in
    let this := set_runSearchWorker this false in
    let this := emit this (finishedSearch (m_lastError this)) in
    (m_lastError this, this).

(** [void BlastSearch::cancelDatabaseBuild()] and [cancelSearch()] *)
Definition cancelDatabaseBuild (this : BlastSearch) : BlastSearch :=
  if negb (m_buildDbWorker this) then this else emit this buildWorkerCancel.

Definition cancelSearch (this : BlastSearch) : BlastSearch :=
  if negb (m_runSearchWorker this) then this else emit this searchWorkerCancel.

(** ** Vocabulary of the further properties *)

(** A path of nodes follows the edges of the graph in the direction of the
    traversal: each node is led to by one of the next edges of the node
    before it. *)
Fixpoint followsEdges (g : AssemblyGraph) (forward : bool) (p : list NodePtr) : Prop :=
  match p with
  | u :: (v :: _) as rest =>
      (exists e, In e (findNextEdgesInPath g u forward) /\ nextNodeOf g forward e = v)
      /\ followsEdges g forward rest
  | _ => True
  end.

(** The nodes of an edge or their reverse complements are drawn: the first
    test of [edgeIsVisible] in single mode. *)
Definition endsDrawn (isDrawn : NodePtr -> bool) (g : AssemblyGraph) (this : EdgePtr) : bool :=
  let e := edgeAt g this in
  (isDrawn (m_startingNode e)
   || isDrawn (getReverseComplement (nodeAt g (m_startingNode e))))
  && (isDrawn (m_endingNode e)
      || isDrawn (getReverseComplement (nodeAt g (m_endingNode e)))).

(** The reverse complement of the reverse complement of a node is the node. *)
Definition reverseComplementInvolutive (g : AssemblyGraph) (p : NodePtr) : Prop :=
  getReverseComplement (nodeAt g (getReverseComplement (nodeAt g p))) = p.

(** The three tools are found from the commands of the object. *)
Definition toolsFound (E : Environment) (this : BlastSearch) : bool :=
  fst (findProgram E "makeblastdb" (m_makeblastdbCommand this))
  && fst (findProgram E "blastn" (m_blastnCommand this))
  && fst (findProgram E "tblastn" (m_tblastnCommand this)).

(** The e-value product without any discount: the product of the
    coefficients, from 1.0, and the sum of the exponents, in the order of the
    hits. *)
Definition plainEvalueProduct (X : Collaborators) (hits : list Hit) : SciNot :=
  let '(coefficientProduct, exponentSum) :=
    fold_left
      (fun '(c, e) hit =>
         ((c * getCoefficient (m_eValue hit))%float, e + getExponent (m_eValue hit)))
      hits (1%float, 0) in
  SciNot_make X coefficientProduct exponentSum.

(** The sum of a count over a list of hits. *)
Definition sumOver (f : Hit -> Z) (hits : list Hit) : Z :=
  fold_right (fun hit total => f hit + total) 0 hits.


(** ** Further fixtures *)

(** O -> A and A -> A, and a node T that no edge leads to: the nodes 0, 1, 2
    and the edges 0 and 1. *)
Definition selfLoopGraph : AssemblyGraph :=
  mkGraph
    [ mkNode "O+" [] 0 0%nat [0%nat];
      mkNode "A+" [] 0 1%nat [0%nat; 1%nat];
      mkNode "T+" [] 0 2%nat [] ]
    [ mkEdge 0%nat 1%nat 0%nat UNKNOWN_OVERLAP 0;
      mkEdge 1%nat 1%nat 1%nat UNKNOWN_OVERLAP 0 ]
    ∅.


(** Two nodes of 100 bases whose sequences are not held, joined by one
    edge. *)
Definition noSequenceGraph : AssemblyGraph :=
  mkGraph
    [ mkNode "1+" [] 100 0%nat [0%nat];
      mkNode "2+" [] 100 1%nat [0%nat] ]
    [ mkEdge 0%nat 1%nat 0%nat UNKNOWN_OVERLAP 0 ]
    ∅.

(** A query with a hit on 1+ that has 2 mismatches and 1 gap open, and a hit
    on 2+ that starts earlier in the query and has 3 mismatches. *)
Definition mismatchQuery : Query :=
  mkQuery
    [ mkHit 0%nat 81 100 21 40 95%float 20 2 1 (mkSciNot 1%float (-50));
      mkHit 1%nat 1 30 1 20 90%float 30 3 0 (mkSciNot 1%float (-10)) ]
    50 NUCLEOTIDE.

(* ================================================================== *)
(** * Part II. Properties                                              *)
(* ================================================================== *)

(** ** The sequence accessor *)

(** C10. [getBaseAt] is total: for an index inside the sequence it returns
    the base stored at that index, and for every other integer index it
    returns the NUL character. *)
Theorem getBaseAt_total (n : DeBruijnNode) (i : Z) :
  (0 <= i < Z.of_nat (List.length (m_sequence n)) ->
     nth_error (m_sequence n) (Z.to_nat i) = Some (getBaseAt n i))
  /\ (~ (0 <= i < Z.of_nat (List.length (m_sequence n))) ->
     getBaseAt n i = Ascii.zero).
Proof.
  unfold getBaseAt. split; intros H.
  - destruct (Z.leb_spec 0 i); [|lia].
    destruct (Z.ltb_spec i (Z.of_nat (List.length (m_sequence n)))); [|lia].
    cbn [andb]. apply nth_error_nth'. lia.
  - destruct (Z.leb_spec 0 i); cbn [andb]; [|reflexivity].
    destruct (Z.ltb_spec i (Z.of_nat (List.length (m_sequence n)))); [lia|reflexivity].
Qed.

Example getBaseAt_examples :
  let n := mkNode "1+" ["A"; "C"; "G"; "T"]%char 4 1%nat [] in
  getBaseAt n 0 = "A"%char /\ getBaseAt n 3 = "T"%char
  /\ getBaseAt n 4 = Ascii.zero /\ getBaseAt n (-1) = Ascii.zero.
Proof. repeat split. Qed.

(** ** The overlap resolver *)

Lemma testExactOverlap_setOverlap g e t ov k :
  testExactOverlap g (setOverlap e t ov) k = testExactOverlap g e k.
Proof. reflexivity. Qed.

(** The loop leaves [mismatchFound] false exactly when it was false and all
    the positions it visits agree. *)
Lemma testExactOverlap_loop_false a b off : forall left j mm,
  testExactOverlap_loop a b off j left mm = false <->
  mm = false /\
  forall i, 0 <= i < Z.of_nat left -> getBaseAt a (off + (j + i)) = getBaseAt b (j + i).
Proof.
  induction left as [|left IH]; intros j mm; cbn [testExactOverlap_loop].
  - split; [intros ->; split; [reflexivity|intros; lia] | tauto].
  - destruct mm.
    + split; [discriminate | intros [? _]; discriminate].
    + rewrite IH. split.
      * intros [Hab Hrest]. split; [reflexivity|]. intros i Hi.
        apply negb_false_iff, Ascii.eqb_eq in Hab.
        destruct (Z.eq_dec i 0) as [->|Hne].
        -- rewrite !Z.add_0_r. exact Hab.
        -- specialize (Hrest (i - 1) ltac:(lia)).
           replace (j + 1 + (i - 1)) with (j + i) in Hrest by lia. exact Hrest.
      * intros [_ Hall]. split.
        -- apply negb_false_iff, Ascii.eqb_eq.
           specialize (Hall 0 ltac:(lia)). rewrite !Z.add_0_r in Hall. exact Hall.
        -- intros i Hi. specialize (Hall (i + 1) ltac:(lia)).
           replace (j + (i + 1)) with (j + 1 + i) in Hall by lia. exact Hall.
Qed.

(** What [testExactOverlap] decides, in terms of [getBaseAt]. *)
Lemma testExactOverlap_iff g e k :
  testExactOverlap g e k = true <->
  forall j, 0 <= j < k ->
    getBaseAt (nodeAt g (m_startingNode e))
      (getLength (nodeAt g (m_startingNode e)) - k + j)
    = getBaseAt (nodeAt g (m_endingNode e)) j.
Proof.
  unfold testExactOverlap. rewrite negb_true_iff, testExactOverlap_loop_false.
  split.
  - intros [_ H] j Hj. apply (H j). lia.
  - intros H. split; [reflexivity|]. intros i Hi. apply (H i). lia.
Qed.

(** For nodes whose stored length is the length of their sequence, and for
    an overlap that fits in both sequences, [testExactOverlap k] says that the
    last [k] bases of the starting node are the first [k] bases of the ending
    node. *)
Lemma testExactOverlap_suffix_prefix g e (k : nat) :
  let s := m_sequence (nodeAt g (m_startingNode e)) in
  let t := m_sequence (nodeAt g (m_endingNode e)) in
  getLength (nodeAt g (m_startingNode e)) = Z.of_nat (List.length s) ->
  (k <= List.length s)%nat -> (k <= List.length t)%nat ->
  (testExactOverlap g e (Z.of_nat k) = true <->
   skipn (List.length s - k) s = firstn k t).
Proof.
  intros s t Hlen Hks Hkt. rewrite testExactOverlap_iff, Hlen. fold s t.
  assert (Hget : forall n i, (i < List.length (m_sequence n))%nat ->
            getBaseAt n (Z.of_nat i) = nth i (m_sequence n) Ascii.zero).
  { intros n i Hi. unfold getBaseAt.
    destruct (Z.leb_spec 0 (Z.of_nat i)); [|lia].
    destruct (Z.ltb_spec (Z.of_nat i) (Z.of_nat (List.length (m_sequence n)))); [|lia].
    cbn [andb]. now rewrite Nat2Z.id. }
  split.
  - intros H. apply (nth_ext _ _ Ascii.zero Ascii.zero).
    + rewrite length_skipn, length_firstn. lia.
    + intros i Hi. rewrite length_skipn in Hi.
      rewrite nth_skipn, nth_firstn.
      destruct (Nat.ltb_spec i k); [|lia].
      specialize (H (Z.of_nat i) ltac:(lia)).
      replace (Z.of_nat (List.length s) - Z.of_nat k + Z.of_nat i)
        with (Z.of_nat (List.length s - k + i)) in H by lia.
      rewrite !Hget in H by (fold s t; lia). exact H.
  - intros H j Hj.
    replace j with (Z.of_nat (Z.to_nat j)) by lia.
    replace (Z.of_nat (List.length s) - Z.of_nat k + Z.of_nat (Z.to_nat j))
      with (Z.of_nat (List.length s - k + Z.to_nat j)) by lia.
    rewrite !Hget by (fold s t; lia). fold s t.
    rewrite <- nth_skipn, H, nth_firstn.
    destruct (Nat.ltb_spec (Z.to_nat j) k); [reflexivity|lia].
Qed.

(** The search loop either stops at a candidate of the range that passes the
    test, or leaves 0 after every candidate it scanned failed. *)
Lemma autoDetermine_loop_spec g e min max : forall left t,
  min <= t <= max ->
  (min <= autoDetermine_loop g e min max t left <= max
   /\ testExactOverlap g e (autoDetermine_loop g e min max t left) = true)
  \/ (autoDetermine_loop g e min max t left = 0
      /\ forall k, min <= k <= max ->
           cyclicDistance min max t k < Z.of_nat left ->
           testExactOverlap g e k = false).
Proof.
  induction left as [|left IH]; intros t Ht; cbn [autoDetermine_loop].
  - right. split; [reflexivity|]. intros k Hk. unfold cyclicDistance.
    destruct (Z.leb_spec t k); lia.
  - destruct (testExactOverlap g e t) eqn:Htest.
    + left. split; [lia|exact Htest].
    + set (t' := if t + 1 >? max then min else t + 1).
      assert (Ht' : min <= t' <= max).
      { subst t'. destruct (Z.gtb_spec (t + 1) max); lia. }
      destruct (IH t' Ht') as [Hfound|[Hzero Hnone]]; [left; exact Hfound|].
      right. split; [exact Hzero|]. intros k Hk Hd.
      destruct (Z.eq_dec k t) as [->|Hne]; [exact Htest|].
      apply Hnone; [exact Hk|]. revert Hd. subst t'. unfold cyclicDistance.
      destruct (Z.gtb_spec (t + 1) max), (Z.leb_spec t k);
        repeat match goal with |- context [?a <=? ?b] => destruct (Z.leb_spec a b) end; lia.
Qed.

(** What the search stores, in terms of [testExactOverlap]. *)
Lemma autoDetermineExactOverlap_search (s : Settings) (rnd : N)
    (g : AssemblyGraph) (this : DeBruijnEdge) :
  maxAutoFindEdgeOverlap s - minAutoFindEdgeOverlap s + 1 <> 0 ->
  exists this',
    autoDetermineExactOverlap s rnd g this = Some this'
    /\ m_overlapType this' = AUTO_DETERMINED_EXACT_OVERLAP
    /\ m_startingNode this' = m_startingNode this
    /\ m_endingNode this' = m_endingNode this
    /\ (minAutoFindEdgeOverlap s <= shorterNodeLen g this ->
        (exists k, inCandidateRange s g this k /\ testExactOverlap g this k = true) ->
        inCandidateRange s g this (m_overlap this')
        /\ testExactOverlap g this (m_overlap this') = true)
    /\ ((forall k, inCandidateRange s g this k -> testExactOverlap g this k = false)
        \/ shorterNodeLen g this < minAutoFindEdgeOverlap s ->
        m_overlap this' = 0).
Proof.
  intros Hdiv. unfold autoDetermineExactOverlap, inCandidateRange.
  fold (shorterNodeLen g this).
  set (sh := shorterNodeLen g this).
  set (mn := minAutoFindEdgeOverlap s) in *.
  set (mx := maxAutoFindEdgeOverlap s) in *.
  destruct (Z.ltb_spec sh mn) as [Hshort|Hlong].
  - (* the guard: the shorter node is below the minimum *)
    eexists. split; [reflexivity|]. cbn. repeat split; try lia.
  - replace (Z.min sh mn) with mn by lia.
    replace (Z.min mn sh) with mn by lia.
    rewrite (Z.min_comm mx sh).
    set (hi := Z.min sh mx).
    destruct (Z.eqb_spec (hi - mn + 1) 0) as [Hz|Hnz]; [subst hi; lia|].
    eexists. split; [reflexivity|]. cbn [m_overlapType m_startingNode m_endingNode
      m_overlap setOverlap]. do 3 (split; [reflexivity|]). split.
    + intros _ [k [Hk Hpass]].
      destruct (Z_lt_le_dec hi mn) as [Hempty|Hne]; [lia|].
      pose proof (Z.rem_bound_pos (Z.of_N rnd) (hi - mn + 1) ltac:(lia) ltac:(lia)) as Hrem.
      destruct (autoDetermine_loop_spec g
                  (setOverlap this AUTO_DETERMINED_EXACT_OVERLAP 0) mn hi
                  (Z.to_nat (hi - mn + 1))
                  (mn + Z.rem (Z.of_N rnd) (hi - mn + 1)) ltac:(lia))
        as [Hfound|[_ Hnone]].
      * rewrite testExactOverlap_setOverlap in Hfound. exact Hfound.
      * exfalso. specialize (Hnone k Hk).
        rewrite testExactOverlap_setOverlap, Hpass in Hnone.
        assert (Hcontra : true = false); [|discriminate].
        apply Hnone. unfold cyclicDistance.
        destruct (Z.leb_spec (mn + Z.rem (Z.of_N rnd) (hi - mn + 1)) k); lia.
    + intros [Hnone|Hshort]; [|lia].
      destruct (Z_lt_le_dec hi mn) as [Hempty|Hne].
      * replace (Z.to_nat (hi - mn + 1)) with 0%nat by lia. reflexivity.
      * pose proof (Z.rem_bound_pos (Z.of_N rnd) (hi - mn + 1) ltac:(lia) ltac:(lia)) as Hrem.
        destruct (autoDetermine_loop_spec g
                    (setOverlap this AUTO_DETERMINED_EXACT_OVERLAP 0) mn hi
                    (Z.to_nat (hi - mn + 1))
                    (mn + Z.rem (Z.of_N rnd) (hi - mn + 1)) ltac:(lia))
          as [[Hin Hpass]|[Hzero _]]; [|exact Hzero].
        rewrite testExactOverlap_setOverlap in Hpass.
        rewrite Hnone in Hpass; [discriminate|exact Hin].
Qed.

(** C1 (as amended). Whenever the divisor [max - min + 1] of the random start
    is not zero, [autoDetermineExactOverlap] returns, marks the edge as
    auto-determined and leaves its ends alone; if the shorter node is at least
    [minCandidate] long and some [k] of the candidate range passes
    [testExactOverlap], the overlap it stores is in the range and passes
    [testExactOverlap], and then, for a non-negative [minCandidate] and nodes
    whose stored length is the length of their sequence, the last [k] bases of
    the starting node are the first [k] bases of the ending node; if no [k] of
    the range passes, or the shorter node is shorter than [minCandidate], the
    overlap it stores is 0. This holds for every value of [rand()]. *)
Theorem autoDetermineExactOverlap_correct (s : Settings) (rnd : N)
    (g : AssemblyGraph) (this : DeBruijnEdge) :
  maxAutoFindEdgeOverlap s - minAutoFindEdgeOverlap s + 1 <> 0 ->
  exists this',
    autoDetermineExactOverlap s rnd g this = Some this'
    /\ m_overlapType this' = AUTO_DETERMINED_EXACT_OVERLAP
    /\ m_startingNode this' = m_startingNode this
    /\ m_endingNode this' = m_endingNode this
    /\ (minAutoFindEdgeOverlap s <= shorterNodeLen g this ->
        (exists k, inCandidateRange s g this k /\ testExactOverlap g this k = true) ->
        inCandidateRange s g this (m_overlap this')
        /\ testExactOverlap g this (m_overlap this') = true
        /\ (0 <= minAutoFindEdgeOverlap s -> lengthsAgree g this ->
            lastBasesAreFirstBases g this (Z.to_nat (m_overlap this'))))
    /\ ((forall k, inCandidateRange s g this k -> testExactOverlap g this k = false)
        \/ shorterNodeLen g this < minAutoFindEdgeOverlap s ->
        m_overlap this' = 0).
Proof.
  intros Hdiv.
  destruct (autoDetermineExactOverlap_search s rnd g this Hdiv)
    as [this' [Hrun [Htype [Hstart [Hend [Hfound Hnone]]]]]].
  exists this'. do 4 (split; [assumption|]). split; [|exact Hnone].
  intros Hlong Hex. destruct (Hfound Hlong Hex) as [Hrange Hpass].
  split; [exact Hrange|]. split; [exact Hpass|].
  intros Hmin [Hls Hle]. unfold inCandidateRange, shorterNodeLen in Hrange, Hlong.
  set (ov := m_overlap this') in *.
  unfold lastBasesAreFirstBases.
  apply (proj1 (testExactOverlap_suffix_prefix g this (Z.to_nat ov) Hls
                  ltac:(lia) ltac:(lia))).
  now rewrite Z2Nat.id by lia.
Qed.

(** The theorem at the edge "GGACG" -> "ACGTT" with candidates 2..4 and
    [rand()] = 7: the only overlap of the range is 3. *)
Lemma autoDetermineExactOverlap_correct_witness :
  4 - 2 + 1 <> 0
  /\ exists this',
       autoDetermineExactOverlap (mkSettings 2 4) 7%N overlapGraph (edgeAt overlapGraph 0%nat)
       = Some this'
       /\ m_overlap this' = 3.
Proof.
  split; [lia|].
  destruct (autoDetermineExactOverlap_correct (mkSettings 2 4) 7%N overlapGraph
              (edgeAt overlapGraph 0%nat) ltac:(cbn; lia))
    as [this' [Hrun _]].
  exists this'. split; [exact Hrun|].
  vm_compute in Hrun. injection Hrun as <-. reflexivity.
Defined.

(** Whatever the random start, the scan of the candidates 2..4 finds the
    overlap 3; with the candidates 3..2 the divisor of the random start is 0. *)
Example autoDetermineExactOverlap_examples :
  map (fun rnd => option_map m_overlap
                    (autoDetermineExactOverlap (mkSettings 2 4) rnd overlapGraph
                       (edgeAt overlapGraph 0%nat)))
      [0; 1; 2; 3; 4; 5; 6]%N
  = repeat (Some 3) 7
  /\ autoDetermineExactOverlap (mkSettings 3 2) 0%N overlapGraph (edgeAt overlapGraph 0%nat)
     = None.
Proof. split; reflexivity. Qed.

(** C1 as stated fails where the guard applies. For the edge "ACG" -> "ACG"
    with candidates 5..10 the claimed range is [[3,3]] and 3 passes
    [testExactOverlap], yet the function stores 0, which lies outside the
    range. *)
Lemma autoDetermineExactOverlap_guard_counterexample :
  let s := mkSettings 5 10 in
  let e := edgeAt overlapGraph 1%nat in
  inCandidateRange s overlapGraph e 3
  /\ testExactOverlap overlapGraph e 3 = true
  /\ autoDetermineExactOverlap s 0%N overlapGraph e
     = Some (setOverlap e AUTO_DETERMINED_EXACT_OVERLAP 0)
  /\ 0 < Z.min (minAutoFindEdgeOverlap s) (shorterNodeLen overlapGraph e).
Proof.
  cbv zeta. unfold inCandidateRange. repeat split; vm_compute; congruence.
Qed.

(** ** The path tracer *)

Lemma timesNodeInPath_count (node : NodePtr) (path : list NodePtr) :
  timesNodeInPath node path = count_occ Nat.eq_dec path node.
Proof.
  unfold timesNodeInPath.
  assert (H : forall acc,
    fold_left (fun count i => (count + (if (i =? node)%nat then 1 else 0))%nat) path acc
    = (acc + count_occ Nat.eq_dec path node)%nat).
  { induction path as [|x path IH]; intros acc; cbn [fold_left count_occ].
    - lia.
    - rewrite IH. destruct (Nat.eqb_spec x node), (Nat.eq_dec x node); lia. }
  apply H.
Qed.

Lemma timesNodeInPath_app node p q :
  timesNodeInPath node (p ++ q) = (timesNodeInPath node p + timesNodeInPath node q)%nat.
Proof. rewrite !timesNodeInPath_count. apply count_occ_app. Qed.

Lemma timesNodeInPath_single node x :
  timesNodeInPath node [x] = if (x =? node)%nat then 1%nat else 0%nat.
Proof. reflexivity. Qed.

(** Every node an edge pointer leads to is one of [graphNodes]. *)
Lemma nextNodeOf_graphNodes g forward e : In (nextNodeOf g forward e) (graphNodes g).
Proof.
  unfold graphNodes. apply nodup_In, in_flat_map.
  exists (edgeAt g e). split.
  - unfold edgeAt. destruct (Nat.lt_ge_cases e (List.length (g_edges g))).
    + right. now apply nth_In.
    + left. now rewrite nth_overflow.
  - unfold nextNodeOf. destruct forward; cbn; auto.
Qed.

Lemma graphNodes_NoDup g : NoDup (graphNodes g).
Proof. apply NoDup_nodup. Qed.

Create HintDb tracer.
#[local] Hint Resolve nextNodeOf_graphNodes graphNodes_NoDup : tracer.

Lemma slack_le V p : (slack V p <= 2 * List.length V)%nat.
Proof.
  induction V as [|v V IH]; cbn [slack List.length]; lia.
Qed.

Lemma slack_push_other V p x :
  ~ In x V -> slack V (p ++ [x]) = slack V p.
Proof.
  induction V as [|v V IH]; intros Hx; cbn [slack]; [reflexivity|].
  rewrite IH by (intros ?; apply Hx; now right).
  rewrite timesNodeInPath_app, timesNodeInPath_single.
  destruct (Nat.eqb_spec x v) as [->|]; [exfalso; apply Hx; now left|lia].
Qed.

Lemma slack_push V p x :
  NoDup V -> In x V -> (timesNodeInPath x p < 2)%nat ->
  S (slack V (p ++ [x])) = slack V p.
Proof.
  induction V as [|v V IH]; intros Hnd Hin Hlt; [destruct Hin|].
  inversion Hnd as [|? ? Hnotin Hnd']; subst. cbn [slack].
  destruct (Nat.eq_dec x v) as [->|Hne].
  - rewrite slack_push_other by assumption.
    rewrite timesNodeInPath_app, timesNodeInPath_single, Nat.eqb_refl. lia.
  - destruct Hin as [->|Hin]; [congruence|].
    rewrite <- (IH Hnd' Hin Hlt).
    rewrite timesNodeInPath_app, timesNodeInPath_single.
    destruct (Nat.eqb_spec x v); [congruence|lia].
Qed.

Lemma atMostTwice_push p x :
  atMostTwice p -> (timesNodeInPath x p < 2)%nat -> atMostTwice (p ++ [x]).
Proof.
  intros Hp Hx n. rewrite timesNodeInPath_app, timesNodeInPath_single.
  destruct (Nat.eqb_spec x n) as [->|]; [lia|]. specialize (Hp n). lia.
Qed.

Lemma timesNodeInPath_remove v p n :
  timesNodeInPath n (remove Nat.eq_dec v p)
  = if Nat.eq_dec n v then 0%nat else timesNodeInPath n p.
Proof.
  rewrite !timesNodeInPath_count.
  induction p as [|x p IH]; cbn [remove count_occ]; [now destruct (Nat.eq_dec n v)|].
  destruct (Nat.eq_dec v x) as [Hvx|Hvx]; cbn [count_occ]; rewrite ?IH;
    destruct (Nat.eq_dec n v), (Nat.eq_dec x n); try rewrite IH; congruence.
Qed.

(** A list over [V] in which nothing occurs more than twice is at most
    twice as long as [V]. *)
Lemma atMostTwice_length (V : list NodePtr) : forall p,
  NoDup V -> (forall x, In x p -> In x V) -> atMostTwice p ->
  (List.length p <= 2 * List.length V)%nat.
Proof.
  induction V as [|v V IH]; intros p Hnd Hsub Htwice.
  - destruct p as [|x p]; [cbn; lia|]. destruct (Hsub x (or_introl eq_refl)).
  - inversion Hnd as [|? ? Hnotin Hnd']; subst.
    assert (Hsplit : (List.length p
                      = timesNodeInPath v p + List.length (remove Nat.eq_dec v p))%nat).
    { rewrite timesNodeInPath_count. clear. induction p as [|x p IHp]; [reflexivity|].
      cbn [count_occ remove List.length].
      destruct (Nat.eq_dec x v), (Nat.eq_dec v x); cbn [List.length]; try congruence; lia. }
    assert (Hrest : (List.length (remove Nat.eq_dec v p) <= 2 * List.length V)%nat).
    { apply IH; [exact Hnd'| |].
      - intros x Hx. apply in_remove in Hx as [Hx Hne].
        destruct (Hsub x Hx) as [->|]; [congruence|assumption].
      - intros n. specialize (Htwice n). rewrite timesNodeInPath_remove.
        destruct (Nat.eq_dec n v); lia. }
    specialize (Htwice v). cbn [List.length]. lia.
Qed.

(** *** [tracePaths] *)

Section TracePaths.

Variable g : AssemblyGraph.
Variable forward : bool.

(** The room in the path shrinks by one with every node that is entered. *)
Ltac slack_step H :=
  let Hslack := fresh "Hslack" in
  pose proof (slack_push (graphNodes g) _ _ (graphNodes_NoDup g)
                (nextNodeOf_graphNodes g forward _) H) as Hslack.

Lemma tracePaths_loop_total rec startingNode pathSoFar :
  (forall e acc,
      (timesNodeInPath (nextNodeOf g forward e) pathSoFar < 2)%nat ->
      exists r, rec e acc = Some r) ->
  forall nextEdges acc,
    exists r, tracePaths_loop rec g forward startingNode pathSoFar nextEdges acc = Some r.
Proof.
  intros Hrec. induction nextEdges as [|e rest IH]; intros acc; cbn [tracePaths_loop].
  - eauto.
  - destruct (_ =? startingNode)%nat; [apply IH|].
    destruct (Nat.ltb_spec (timesNodeInPath (nextNodeOf g forward e) pathSoFar) 2)
      as [Hlt|Hge]; [|apply IH].
    destruct (Hrec e acc Hlt) as [r ->]. apply IH.
Qed.

(** A call whose next node occurs fewer than twice in the path returns as
    soon as the fuel covers the room left in the path. *)
Lemma tracePaths_total_aux startingNode : forall fuel this steps acc p,
  (timesNodeInPath (nextNodeOf g forward this) p < 2)%nat ->
  (slack (graphNodes g) p <= fuel)%nat ->
  exists r, tracePaths fuel g this forward steps acc startingNode p = Some r.
Proof.
  induction fuel as [|fuel IH]; intros this steps acc p Hlt Hfuel.
  - slack_step Hlt. lia.
  - cbn [tracePaths].
    destruct (steps - 1 =? 0); [eauto|].
    destruct (findNextEdgesInPath g (nextNodeOf g forward this) forward) as [|e0 es]; [eauto|].
    apply tracePaths_loop_total. intros e acc' He. apply IH; [exact He|].
    slack_step Hlt. lia.
Qed.

(** With [traversalFuel] the enumeration from the empty path always returns. *)
Lemma tracePaths_total this steps startingNode :
  exists paths, tracePaths_run g this forward steps startingNode = Some paths.
Proof.
  unfold tracePaths_run. apply tracePaths_total_aux.
  - cbn. lia.
  - unfold traversalFuel. pose proof (slack_le (graphNodes g) []). lia.
Qed.

Lemma tracePaths_loop_mono rec rec' startingNode pathSoFar :
  (forall e acc r, rec e acc = Some r -> rec' e acc = Some r) ->
  forall nextEdges acc r,
    tracePaths_loop rec g forward startingNode pathSoFar nextEdges acc = Some r ->
    tracePaths_loop rec' g forward startingNode pathSoFar nextEdges acc = Some r.
Proof.
  intros Hrec. induction nextEdges as [|e rest IH]; intros acc r; cbn [tracePaths_loop].
  - auto.
  - destruct (_ =? startingNode)%nat; [apply IH|].
    destruct (_ <? 2)%nat; [|apply IH].
    destruct (rec e acc) as [acc'|] eqn:Hcall; [|discriminate].
    rewrite (Hrec _ _ _ Hcall). apply IH.
Qed.

(** More fuel does not change a result. *)
Lemma tracePaths_fuel_mono startingNode : forall fuel fuel' this steps acc p r,
  (fuel <= fuel')%nat ->
  tracePaths fuel g this forward steps acc startingNode p = Some r ->
  tracePaths fuel' g this forward steps acc startingNode p = Some r.
Proof.
  induction fuel as [|fuel IH]; intros fuel' this steps acc p r Hle; [discriminate|].
  destruct fuel' as [|fuel']; [lia|]. cbn [tracePaths].
  destruct (steps - 1 =? 0); [auto|].
  destruct (findNextEdgesInPath g (nextNodeOf g forward this) forward) as [|e0 es]; [auto|].
  apply tracePaths_loop_mono. intros e acc' r'. apply IH. lia.
Qed.

Lemma tracePaths_loop_emits (Q : list NodePtr -> Prop) rec startingNode pathSoFar :
  Q pathSoFar ->
  (forall e acc r,
      (timesNodeInPath (nextNodeOf g forward e) pathSoFar < 2)%nat ->
      rec e acc = Some r -> exists new, r = acc ++ new /\ Forall Q new) ->
  forall nextEdges acc r,
    tracePaths_loop rec g forward startingNode pathSoFar nextEdges acc = Some r ->
    exists new, r = acc ++ new /\ Forall Q new.
Proof.
  intros HQ Hrec. induction nextEdges as [|e rest IH]; intros acc r; cbn [tracePaths_loop].
  - intros [= <-]. exists []. split; [now rewrite app_nil_r|constructor].
  - destruct (_ =? startingNode)%nat.
    { intros Hr. destruct (IH _ _ Hr) as [new [-> Hnew]].
      exists (pathSoFar :: new). split; [now rewrite <- app_assoc|now constructor]. }
    destruct (Nat.ltb_spec (timesNodeInPath (nextNodeOf g forward e) pathSoFar) 2)
      as [Hlt|Hge]; [|apply IH].
    destruct (rec e acc) as [acc'|] eqn:Hcall; [|discriminate].
    intros Hr. destruct (Hrec _ _ _ Hlt Hcall) as [new1 [-> Hnew1]].
    destruct (IH _ _ Hr) as [new2 [-> Hnew2]].
    exists (new1 ++ new2). split; [now rewrite app_assoc|now apply Forall_app].
Qed.

(** Every path that a call adds to [allPaths] satisfies any property [Q]
    that holds of the path after the first push and is kept when a node that
    occurs fewer than twice is pushed. *)
Lemma tracePaths_emits (Q : list NodePtr -> Prop) startingNode :
  (forall p e, Q p -> (timesNodeInPath (nextNodeOf g forward e) p < 2)%nat ->
               Q (p ++ [nextNodeOf g forward e])) ->
  forall fuel this steps acc p r,
    Q (p ++ [nextNodeOf g forward this]) ->
    tracePaths fuel g this forward steps acc startingNode p = Some r ->
    exists new, r = acc ++ new /\ Forall Q new.
Proof.
  intros Hstep. induction fuel as [|fuel IH]; intros this steps acc p r HQ; [discriminate|].
  cbn [tracePaths].
  assert (Hone : exists new,
             acc ++ [p ++ [nextNodeOf g forward this]] = acc ++ new /\ Forall Q new).
  { exists [p ++ [nextNodeOf g forward this]]. split; [reflexivity|]. now repeat constructor. }
  destruct (steps - 1 =? 0); [intros [= <-]; exact Hone|].
  destruct (findNextEdgesInPath g (nextNodeOf g forward this) forward) as [|e0 es];
    [intros [= <-]; exact Hone|].
  apply (tracePaths_loop_emits Q); [exact HQ|].
  intros e acc' r' Hlt Hcall. eapply IH; [|exact Hcall]. now apply Hstep.
Qed.

(** The loop calls [rec] only on edges that lead to a node occurring fewer
    than twice in the accumulated path (and not to the starting node): two
    callbacks that agree on those edges give the same loop. *)
Lemma tracePaths_loop_ext rec rec' startingNode pathSoFar :
  (forall e acc,
      nextNodeOf g forward e <> startingNode ->
      (timesNodeInPath (nextNodeOf g forward e) pathSoFar < 2)%nat ->
      rec e acc = rec' e acc) ->
  forall nextEdges acc,
    tracePaths_loop rec g forward startingNode pathSoFar nextEdges acc
    = tracePaths_loop rec' g forward startingNode pathSoFar nextEdges acc.
Proof.
  intros Hext. induction nextEdges as [|e rest IH]; intros acc; cbn [tracePaths_loop].
  - reflexivity.
  - destruct (Nat.eqb_spec (nextNodeOf g forward e) startingNode) as [|Hne]; [apply IH|].
    destruct (Nat.ltb_spec (timesNodeInPath (nextNodeOf g forward e) pathSoFar) 2)
      as [Hlt|Hge]; [|apply IH].
    rewrite (Hext e acc Hne Hlt). destruct (rec' e acc); [apply IH|reflexivity].
Qed.

End TracePaths.

(** C3. For every graph, start edge, direction and step bound the
    enumeration returns; in every path it emits each node occurs at most
    twice, so no path is longer than twice the number of nodes; on the cycle
    A -> B -> C -> A with [maxSteps = 10] every emitted path has length at most
    6, from whichever edge, in whichever direction and with whichever starting
    node the enumeration is run. *)
Theorem tracePaths_terminates_visits_twice :
  (forall g this forward stepsRemaining startingNode,
      exists paths,
        tracePaths_run g this forward stepsRemaining startingNode = Some paths
        /\ Forall (fun p => (forall n, (timesNodeInPath n p <= 2)%nat)
                            /\ (List.length p <= 2 * List.length (graphNodes g))%nat)
             paths)
  /\ (forall this forward startingNode,
      exists paths,
        tracePaths_run cycle3 this forward 10 startingNode = Some paths
        /\ Forall (fun p => (List.length p <= 6)%nat) paths).
Proof.
  assert (Hgen : forall g this forward stepsRemaining startingNode,
      exists paths,
        tracePaths_run g this forward stepsRemaining startingNode = Some paths
        /\ Forall (fun p => (forall n, (timesNodeInPath n p <= 2)%nat)
                            /\ (List.length p <= 2 * List.length (graphNodes g))%nat)
             paths).
  { intros g this forward steps startingNode.
    destruct (tracePaths_total g forward this steps startingNode) as [paths Hrun].
    exists paths. split; [exact Hrun|].
    set (Q := fun p => atMostTwice p /\ forall x, In x p -> In x (graphNodes g)).
    destruct (tracePaths_emits g forward Q startingNode) with
      (fuel := traversalFuel g) (this := this) (steps := steps)
      (acc := @nil (list NodePtr)) (p := @nil NodePtr) (r := paths)
      as [new [-> Hnew]].
    - intros p e [Htw Hin] Hlt. split; [now apply atMostTwice_push|].
      intros x Hx. apply in_app_or in Hx as [Hx|[<-|[]]]; auto with tracer.
    - split.
      + intros n. rewrite timesNodeInPath_app, timesNodeInPath_single. cbn.
        destruct (_ =? n)%nat; lia.
      + intros x [<-|[]]. auto with tracer.
    - exact Hrun.
    - cbn [app]. eapply Forall_impl; [|exact Hnew].
      intros p [Htw Hin]. split; [exact Htw|].
      apply atMostTwice_length; auto with tracer. }
  split; [exact Hgen|].
  intros this forward startingNode.
  destruct (Hgen cycle3 this forward 10 startingNode) as [paths [Hrun Hall]].
  exists paths. split; [exact Hrun|].
  eapply Forall_impl; [|exact Hall]. intros p [_ Hlen]. exact Hlen.
Qed.

(** With one step the enumeration emits the single path that holds the
    node the edge leads to. *)
Lemma tracePaths_one_step g this forward startingNode :
  tracePaths_run g this forward 1 startingNode = Some [[nextNodeOf g forward this]].
Proof. reflexivity. Qed.

(** The cycle, enumerated forwards from the edge A -> B with A as the
    starting node: the single branch stops when the next hop would close the
    loop, and [B; C] is emitted. *)
Example tracePaths_cycle3 :
  tracePaths_run cycle3 0%nat true 10 0%nat = Some [[1%nat; 2%nat]].
Proof. reflexivity. Qed.

(** With a starting node outside the cycle the branch runs until every node
    has been seen twice and is then dropped without emitting. *)
Example tracePaths_cycle3_other_start :
  tracePaths_run cycle3 0%nat true 10 7%nat = Some [].
Proof. reflexivity. Qed.

(** *** [leadsOnlyToNode] *)

Section LeadsOnlyToNode.

Variable g : AssemblyGraph.
Variable forward : bool.
Variable target : NodePtr.
Variable rc : bool.

Ltac slack_step H :=
  let Hslack := fresh "Hslack" in
  pose proof (slack_push (graphNodes g) _ _ (graphNodes_NoDup g)
                (nextNodeOf_graphNodes g forward _) H) as Hslack.

Lemma leadsOnlyToNode_loop_total rec pathSoFar :
  (forall e, (timesNodeInPath (nextNodeOf g forward e) pathSoFar < 2)%nat ->
             exists b, rec e = Some b) ->
  forall nextEdges, exists b, leadsOnlyToNode_loop rec g forward pathSoFar nextEdges = Some b.
Proof.
  intros Hrec. induction nextEdges as [|e rest IH]; cbn [leadsOnlyToNode_loop].
  - eauto.
  - destruct (Nat.ltb_spec (timesNodeInPath (nextNodeOf g forward e) pathSoFar) 2)
      as [Hlt|Hge]; [|apply IH].
    destruct (Hrec e Hlt) as [[|] ->]; [apply IH|eauto].
Qed.

Lemma leadsOnlyToNode_total_aux : forall fuel this steps p,
  (timesNodeInPath (nextNodeOf g forward this) p < 2)%nat ->
  (slack (graphNodes g) p <= fuel)%nat ->
  exists b, leadsOnlyToNode fuel g this forward steps target p rc = Some b.
Proof.
  induction fuel as [|fuel IH]; intros this steps p Hlt Hfuel.
  - slack_step Hlt. lia.
  - cbn [leadsOnlyToNode].
    set (n := nextNodeOf g forward this).
    destruct (n =? nth 0 (p ++ [n]) 0)%nat; [eauto|].
    destruct (n =? target)%nat; [eauto|].
    destruct (rc && (getReverseComplement (nodeAt g n) =? target)%nat); [eauto|].
    destruct (steps - 1 =? 0); [eauto|]. subst n.
    destruct (findNextEdgesInPath g (nextNodeOf g forward this) forward) as [|e0 es]; [eauto|].
    apply leadsOnlyToNode_loop_total. intros e He. apply IH; [exact He|].
    slack_step Hlt. lia.
Qed.

(** From a path in which the next node occurs fewer than twice, in
    particular from the one-node path of the caller, the search returns. *)
Lemma leadsOnlyToNode_total this steps p :
  (timesNodeInPath (nextNodeOf g forward this) p < 2)%nat ->
  exists b, leadsOnlyToNode_run g this forward steps target p rc = Some b.
Proof.
  intros Hlt. unfold leadsOnlyToNode_run. apply leadsOnlyToNode_total_aux; [exact Hlt|].
  unfold traversalFuel. pose proof (slack_le (graphNodes g) p). lia.
Qed.

Lemma leadsOnlyToNode_loop_mono rec rec' pathSoFar :
  (forall e b, rec e = Some b -> rec' e = Some b) ->
  forall nextEdges b,
    leadsOnlyToNode_loop rec g forward pathSoFar nextEdges = Some b ->
    leadsOnlyToNode_loop rec' g forward pathSoFar nextEdges = Some b.
Proof.
  intros Hrec. induction nextEdges as [|e rest IH]; intros b; cbn [leadsOnlyToNode_loop].
  - auto.
  - destruct (_ <? 2)%nat; [|apply IH].
    destruct (rec e) as [[|]|] eqn:Hcall; try discriminate;
      rewrite (Hrec _ _ Hcall); [apply IH|auto].
Qed.

(** More fuel does not change a verdict. *)
Lemma leadsOnlyToNode_fuel_mono : forall fuel fuel' this steps p b,
  (fuel <= fuel')%nat ->
  leadsOnlyToNode fuel g this forward steps target p rc = Some b ->
  leadsOnlyToNode fuel' g this forward steps target p rc = Some b.
Proof.
  induction fuel as [|fuel IH]; intros fuel' this steps p b Hle; [discriminate|].
  destruct fuel' as [|fuel']; [lia|]. cbn [leadsOnlyToNode].
  set (n := nextNodeOf g forward this).
  destruct (n =? nth 0 (p ++ [n]) 0)%nat; [auto|].
  destruct (n =? target)%nat; [auto|].
  destruct (rc && (getReverseComplement (nodeAt g n) =? target)%nat); [auto|].
  destruct (steps - 1 =? 0); [auto|].
  destruct (findNextEdgesInPath g n forward) as [|e0 es]; [auto|].
  apply leadsOnlyToNode_loop_mono. intros e b'. apply IH. lia.
Qed.

(** The loop fails as soon as one of the edges it recurses into fails,
    provided the calls before it return. *)
Lemma leadsOnlyToNode_loop_false rec pathSoFar e :
  (forall e', (timesNodeInPath (nextNodeOf g forward e') pathSoFar < 2)%nat ->
              exists b, rec e' = Some b) ->
  (timesNodeInPath (nextNodeOf g forward e) pathSoFar < 2)%nat ->
  rec e = Some false ->
  forall nextEdges, In e nextEdges ->
    leadsOnlyToNode_loop rec g forward pathSoFar nextEdges = Some false.
Proof.
  intros Htotal Hlt Hfalse. induction nextEdges as [|x rest IH]; intros Hin; [destruct Hin|].
  cbn [leadsOnlyToNode_loop].
  destruct (Nat.eq_dec x e) as [->|Hne].
  - destruct (Nat.ltb_spec (timesNodeInPath (nextNodeOf g forward e) pathSoFar) 2); [|lia].
    now rewrite Hfalse.
  - destruct Hin as [->|Hin]; [congruence|].
    destruct (Nat.ltb_spec (timesNodeInPath (nextNodeOf g forward x) pathSoFar) 2)
      as [Hx|Hx]; [|now apply IH].
    destruct (Htotal x Hx) as [[|] ->]; [now apply IH|reflexivity].
Qed.

(** A suffix of a path that loops back is a path that loops back. *)
Lemma loopsBack_suffix origin : forall l1 l2,
  l2 <> [] ->
  loopsBack g forward origin target rc (l1 ++ l2) ->
  loopsBack g forward origin target rc l2.
Proof.
  induction l1 as [|x l1 IH]; intros l2 Hne Hw; [exact Hw|].
  apply IH; [exact Hne|]. cbn [app] in Hw.
  inversion Hw as [e Hlast Heq|e e' w Hno Htg Hin Hrest Heq].
  - destruct l1, l2; cbn in *; congruence.
  - exact Hrest.
Qed.

(** A path that loops back can be cut to one that enters no node twice: a
    detour between two visits of a node is dropped. The first edge stays. *)
Lemma loopsBack_simple origin : forall w e,
  loopsBack g forward origin target rc (e :: w) ->
  exists w',
    loopsBack g forward origin target rc (e :: w')
    /\ NoDup (map (nextNodeOf g forward) (e :: w'))
    /\ (List.length w' <= List.length w)%nat.
Proof.
  induction w as [|e1 w1 IH]; intros e Hw.
  - exists []. split; [exact Hw|]. split; [|lia].
    cbn. constructor; [intros []|constructor].
  - inversion Hw as [|? ? ? Hno Htg Hin Hrest]; subst.
    destruct (IH e1 Hrest) as [w1' [Hw1 [Hnd Hlen]]].
    destruct (in_dec Nat.eq_dec (nextNodeOf g forward e)
                (map (nextNodeOf g forward) (e1 :: w1'))) as [Hdup|Hfresh].
    + apply in_map_iff in Hdup as [ej [Hej Hinj]].
      apply in_split in Hinj as [l1 [l2 Hsplit]].
      assert (Hsuf : loopsBack g forward origin target rc (ej :: l2)).
      { apply (loopsBack_suffix origin l1); [discriminate|].
        now rewrite <- Hsplit. }
      inversion Hsuf as [? Hlast|? e' l2' Hno' Htg' Hin' Hrest']; subst; [congruence|].
      exists (e' :: l2'). split; [|split].
      * apply loopsBack_hop; try assumption. now rewrite <- Hej.
      * rewrite Hsplit, map_app in Hnd. apply NoDup_app_remove_l in Hnd.
        cbn [map] in *. now rewrite <- Hej.
      * apply (f_equal (@List.length _)) in Hsplit.
        rewrite length_app in Hsplit. cbn [List.length] in *. lia.
    + exists (e1 :: w1'). split; [|split].
      * now apply loopsBack_hop.
      * cbn [map]. constructor; assumption.
      * cbn [List.length]. lia.
Qed.

Lemma timesNodeInPath_notin n p : ~ In n p -> timesNodeInPath n p = 0%nat.
Proof. rewrite timesNodeInPath_count. apply count_occ_not_In. Qed.

(** The search fails along a path that loops back and enters no node twice,
    when the accumulated path starts at the origin and holds none of the
    nodes still to come. *)
Lemma leadsOnlyToNode_loopsBack_aux origin : forall w e vis fuel steps,
  loopsBack g forward origin target rc (e :: w) ->
  NoDup (map (nextNodeOf g forward) (e :: w)) ->
  (forall n, In n (map (nextNodeOf g forward) (e :: w)) -> n <> origin -> ~ In n vis) ->
  ~ In origin vis ->
  (slack (graphNodes g) (origin :: vis) <= fuel)%nat ->
  leadsOnlyToNode fuel g e forward steps target (origin :: vis) rc = Some false.
Proof.
  induction w as [|e' w IH]; intros e vis fuel steps Hw Hnd Hfresh Hcount Hfuel.
  - inversion Hw as [? Hlast|]; subst.
    assert (Hlt : (timesNodeInPath (nextNodeOf g forward e) (nextNodeOf g forward e :: vis) < 2)%nat).
    { change (nextNodeOf g forward e :: vis) with ([nextNodeOf g forward e] ++ vis).
      rewrite timesNodeInPath_app, timesNodeInPath_single, Nat.eqb_refl.
      rewrite timesNodeInPath_notin by exact Hcount. lia. }
    slack_step Hlt.
    destruct fuel as [|fuel]; [lia|]. cbn [leadsOnlyToNode app nth].
    now rewrite Nat.eqb_refl.
  - inversion Hw as [|? ? ? Hno Htg Hin Hrest]; subst.
    set (n := nextNodeOf g forward e) in *.
    assert (Hn : ~ In n (origin :: vis)).
    { intros [Heq|Hn]; [congruence|]. revert Hn. apply Hfresh; [now left|exact Hno]. }
    assert (Hn0 : (timesNodeInPath n (origin :: vis) < 2)%nat)
      by (rewrite timesNodeInPath_notin; [lia|exact Hn]).
    slack_step Hn0. fold n in Hslack.
    destruct fuel as [|fuel]; [lia|]. cbn [leadsOnlyToNode app nth]. fold n.
    destruct (Nat.eqb_spec n origin) as [Heq|_]; [congruence|].
    unfold reachesTarget in Htg. apply orb_false_iff in Htg as [Ht1 Ht2].
    rewrite Ht1, Ht2.
    destruct (Z.eqb_spec (steps - 1) 0) as [Hz|_]; [reflexivity|].
    destruct (findNextEdgesInPath g n forward) as [|e0 es] eqn:Hnext; [destruct Hin|].
    inversion Hnd as [|? ? Hnotin Hnd']; subst.
    assert (Hfresh' : forall m, In m (map (nextNodeOf g forward) (e' :: w)) ->
                                m <> origin -> ~ In m (vis ++ [n])).
    { intros m Hm Hmo Hmp. apply in_app_or in Hmp as [Hmp|[Hmp|[]]].
      - revert Hmp. apply Hfresh; [now right|exact Hmo].
      - apply Hnotin. fold n. rewrite Hmp. exact Hm. }
    assert (Horigin' : ~ In origin (vis ++ [n])).
    { intros Ho. apply in_app_or in Ho as [Ho|[Ho|[]]]; [now apply Hcount|].
      apply Hno. exact Ho. }
    apply leadsOnlyToNode_loop_false with (e := e').
    + intros x Hx. apply leadsOnlyToNode_total_aux; [exact Hx|].
      change (origin :: vis ++ [n]) with ((origin :: vis) ++ [n]). lia.
    + change (origin :: vis ++ [n]) with ([origin] ++ (vis ++ [n])).
      rewrite timesNodeInPath_app, timesNodeInPath_single.
      destruct (Nat.eq_dec (nextNodeOf g forward e') origin) as [->|Hne].
      * rewrite Nat.eqb_refl, timesNodeInPath_notin by exact Horigin'. lia.
      * destruct (Nat.eqb_spec origin (nextNodeOf g forward e')); [congruence|].
        rewrite timesNodeInPath_notin; [lia|]. apply Hfresh'; [now left|exact Hne].
    + apply IH.
      * exact Hrest.
      * exact Hnd'.
      * exact Hfresh'.
      * exact Horigin'.
      * change (origin :: vis ++ [n]) with ((origin :: vis) ++ [n]). lia.
    + exact Hin.
Qed.

End LeadsOnlyToNode.

(** C2 (as amended). When some directed path from the start edge comes back
    to the origin of the traversal without reaching the target (or a node
    whose reverse complement is the target, when reverse complements are
    included) on the way, [leadsOnlyToNode], called with the origin as the
    path so far, returns false. This holds for every step bound [maxSteps] and
    for paths of every length, so for those of at most [maxSteps] hops: where
    the steps run out before the origin is reached, the search fails for that
    reason. In particular it returns false when the start edge lies on a cycle
    through the origin that misses the target: the part of the cycle from the
    start edge to the origin is such a path. *)
Theorem leadsOnlyToNode_false_on_loop (g : AssemblyGraph) (this : EdgePtr)
    (forward : bool) (maxSteps : Z) (target origin : NodePtr)
    (includeReverseComplement : bool) (w : list EdgePtr) :
  loopsBack g forward origin target includeReverseComplement (this :: w) ->
  leadsOnlyToNode_run g this forward maxSteps target [origin] includeReverseComplement
  = Some false.
Proof.
  intros Hw.
  (* cut the path down to one that enters no node twice *)
  destruct (loopsBack_simple g forward target includeReverseComplement origin w this Hw)
    as [w' [Hw' [Hnd Hlen]]].
  unfold leadsOnlyToNode_run.
  (* and follow it from the one-node path [origin] *)
  apply leadsOnlyToNode_loopsBack_aux with (w := w').
  - exact Hw'.
  - exact Hnd.
  - intros n _ _ [].
  - intros [].
  - unfold traversalFuel. pose proof (slack_le (graphNodes g) [origin]). lia.
Qed.

(** The theorem on the cycle A -> B -> C -> A with the dead end D as target:
    the walk along the edges 0, 1, 2 loops back to A. With a step bound of 2
    the search gives up at C, with the same answer. *)
Lemma leadsOnlyToNode_false_on_loop_witness :
  leadsOnlyToNode_run cycle3tail 0%nat true 10 3%nat [0%nat] false = Some false
  /\ leadsOnlyToNode_run cycle3tail 0%nat true 2 3%nat [0%nat] false = Some false.
Proof.
  assert (Hw : loopsBack cycle3tail true 0%nat 3%nat false [0%nat; 1%nat; 2%nat]).
  { apply loopsBack_hop; [cbn; lia|reflexivity|cbn; tauto|].
    apply loopsBack_hop; [cbn; lia|reflexivity|cbn; tauto|].
    apply loopsBack_last. reflexivity. }
  split.
  - exact (leadsOnlyToNode_false_on_loop cycle3tail 0%nat true 10 3%nat 0%nat false
             [1%nat; 2%nat] Hw).
  - exact (leadsOnlyToNode_false_on_loop cycle3tail 0%nat true 2 3%nat 0%nat false
             [1%nat; 2%nat] Hw).
Defined.

(** C2 as stated fails for a cycle that the start edge is not on. In
    [sideCycleGraph] the edges O -> B (2) and B -> O (3) form a cycle through
    the origin O that misses the target T, and the traversal from the edge
    O -> A still succeeds, because A leads to T only. *)
Lemma leadsOnlyToNode_side_cycle_counterexample :
  m_startingNode (edgeAt sideCycleGraph 2%nat) = 0%nat
  /\ loopsBack sideCycleGraph true 0%nat 2%nat false [2%nat; 3%nat]
  /\ leadsOnlyToNode_run sideCycleGraph 0%nat true 10 2%nat [0%nat] false = Some true.
Proof.
  split; [reflexivity|]. split; [|reflexivity].
  apply loopsBack_hop; [cbn; lia|reflexivity|cbn; tauto|].
  apply loopsBack_last. reflexivity.
Qed.

(** For contrast: from the edge C -> D every path reaches D at once, and the
    search succeeds. *)
Example leadsOnlyToNode_reaches_target :
  leadsOnlyToNode_run cycle3tail 3%nat true 10 3%nat [2%nat] false = Some true.
Proof. reflexivity. Qed.

(** ** Positive edges *)

Lemma isPositive_isNegative_exclusive n :
  isPositiveNode n && isNegativeNode n = false.
Proof.
  unfold isPositiveNode, isNegativeNode. destruct (lastChar (m_name n)) as [c|]; [|reflexivity].
  destruct (Ascii.eqb_spec c "+"%char) as [->|]; reflexivity.
Qed.

Lemma QString_gt_antisym a b : a <> b -> QString_gt a b = negb (QString_gt b a).
Proof.
  intros Hne. unfold QString_gt. rewrite (String.compare_antisym b a).
  destruct (String.compare a b) eqn:Hc; try reflexivity.
  apply String.compare_eq_iff in Hc. contradiction.
Qed.

(** C9. Take an edge that satisfies the strand-flip invariant of the data
    model. If its reverse-complement partner is another edge, whose own
    partner is the edge again and which starts at a differently named node
    (edges are told apart by their ends and nodes by their names), then
    exactly one of the two is positive: an edge between two positive nodes is
    positive, an edge between two negative nodes is not, and otherwise the
    edge is positive exactly when the name of its starting node is greater
    than the name of its partner's starting node. If the edge is its own
    reverse complement, it is positive. *)
Theorem isPositiveEdge_canonical (g : AssemblyGraph) (this : EdgePtr) :
  strandFlipped g this ->
  let e := edgeAt g this in
  let partner := m_reverseComplement e in
  let startingNode := nodeAt g (m_startingNode e) in
  let endingNode := nodeAt g (m_endingNode e) in
  (partner <> this ->
   m_reverseComplement (edgeAt g partner) = this ->
   getName startingNode <> getName (nodeAt g (m_startingNode (edgeAt g partner))) ->
   isPositiveEdge g partner = negb (isPositiveEdge g this)
   /\ (isPositiveNode startingNode && isPositiveNode endingNode = true ->
       isPositiveEdge g this = true)
   /\ (isNegativeNode startingNode && isNegativeNode endingNode = true ->
       isPositiveEdge g this = false)
   /\ (isPositiveNode startingNode && isPositiveNode endingNode = false ->
       isNegativeNode startingNode && isNegativeNode endingNode = false ->
       isPositiveEdge g this
       = QString_gt (getName startingNode)
           (getName (nodeAt g (m_startingNode (edgeAt g partner))))))
  /\ (partner = this -> isPositiveEdge g this = true).
Proof.
  intros [Hs [He [[Hpe Hne] [Hps Hns]]]]. cbv zeta in *.
  rewrite <- He in Hpe, Hne. rewrite <- Hs in Hps, Hns.
  set (e := edgeAt g this) in *.
  set (partner := m_reverseComplement e) in *.
  set (A := nodeAt g (m_startingNode e)) in *.
  set (B := nodeAt g (m_endingNode e)) in *.
  pose proof (isPositive_isNegative_exclusive A) as HexA.
  pose proof (isPositive_isNegative_exclusive B) as HexB.
  split.
  - intros Hdistinct Hback Hnames.
    set (A' := nodeAt g (m_startingNode (edgeAt g partner))) in *.
    set (B' := nodeAt g (m_endingNode (edgeAt g partner))) in *.
    assert (Hthis : isPositiveEdge g this
                    = if isPositiveNode A && isPositiveNode B then true
                      else if isNegativeNode A && isNegativeNode B then false
                      else QString_gt (getName A) (getName A')).
    { unfold isPositiveEdge, isOwnReverseComplement. fold e partner A B A'.
      destruct (Nat.eqb_spec this partner); [congruence|reflexivity]. }
    assert (Hpartner : isPositiveEdge g partner
                       = if isNegativeNode B && isNegativeNode A then true
                         else if isPositiveNode B && isPositiveNode A then false
                         else QString_gt (getName A') (getName A)).
    { unfold isPositiveEdge, isOwnReverseComplement. fold A' B'.
      rewrite Hback. fold e A. rewrite Hps, Hns, Hpe, Hne.
      destruct (Nat.eqb_spec partner this); [congruence|reflexivity]. }
    rewrite Hthis, Hpartner, (QString_gt_antisym (getName A') (getName A)) by congruence.
    destruct (isPositiveNode A), (isPositiveNode B), (isNegativeNode A), (isNegativeNode B);
      cbn in *; try discriminate; repeat split; intros; try discriminate; try reflexivity;
      now rewrite negb_involutive.
  - intros Hown. unfold isPositiveEdge, isOwnReverseComplement. fold e partner A B.
    rewrite Hown, Nat.eqb_refl.
    assert (HA : isPositiveNode A = isNegativeNode B /\ isNegativeNode A = isPositiveNode B).
    { unfold partner in Hown. fold partner in Hown. subst A.
      replace (m_startingNode e) with (m_startingNode (edgeAt g partner))
        by (rewrite Hown; reflexivity).
      split; assumption. }
    destruct HA as [HA1 HA2]. rewrite HA1, HA2.
    destruct (isPositiveNode B), (isNegativeNode B); cbn in *; try discriminate; reflexivity.
Qed.

(** The theorem on [strandGraph]: of the mixed-strand pair 1+ -> 2- and
    2+ -> 1- exactly the second is positive, and the self-paired edge
    3+ -> 3- is positive. *)
Lemma isPositiveEdge_canonical_witness :
  isPositiveEdge strandGraph 3%nat = negb (isPositiveEdge strandGraph 2%nat)
  /\ isPositiveEdge strandGraph 3%nat = true
  /\ isPositiveEdge strandGraph 4%nat = true.
Proof.
  assert (H2 : strandFlipped strandGraph 2%nat) by (repeat split).
  assert (H4 : strandFlipped strandGraph 4%nat) by (repeat split).
  destruct (isPositiveEdge_canonical strandGraph 2%nat H2) as [Hpair _].
  destruct (isPositiveEdge_canonical strandGraph 4%nat H4) as [_ Hown].
  destruct Hpair as [Hone _].
  - cbn. lia.
  - reflexivity.
  - cbn. discriminate.
  - split; [exact Hone|]. split; [reflexivity|]. apply Hown. reflexivity.
Defined.

Example isPositiveEdge_strandGraph :
  map (isPositiveEdge strandGraph) [0; 1; 2; 3; 4]%nat = [true; false; false; true; true].
Proof. reflexivity. Qed.

(** ** The query-path scorer *)

(** *** [getHitOverlap] *)

Lemma spanOverlap_max s1 e1 s2 e2 :
  spanOverlap s1 e1 s2 e2 = Z.max 0 (Z.min e1 e2 - Z.max s1 s2).
Proof.
  unfold spanOverlap. destruct (Z.gtb_spec (Z.min e1 e2 - Z.max s1 s2) 0); lia.
Qed.

(** C6. [getHitOverlap] measures the overlap of two hits in one frame. On
    the same node the two node spans are compared as they are (each span
    [start..end] taken as the half-open interval from [start - 1] to [end]);
    when the graph has an edge from the node of the first hit to the node of
    the second, the span of the second hit is moved by
    [firstHitNodeLength - connectingEdgeOverlap] and the result is the least
    end minus the greatest start; with neither, the result is 0. In both
    computed cases a negative difference is replaced by 0, so the result is
    never negative. *)
Theorem getHitOverlap_spec (g : AssemblyGraph) (hit1 hit2 : Hit) :
  (m_node hit1 = m_node hit2 ->
     getHitOverlap g hit1 hit2
     = Z.max 0 (Z.min (m_nodeEnd hit1) (m_nodeEnd hit2)
                - Z.max (m_nodeStart hit1 - 1) (m_nodeStart hit2 - 1)))
  /\ (forall edge,
        m_node hit1 <> m_node hit2 ->
        m_deBruijnGraphEdges g !! (m_node hit1, m_node hit2) = Some edge ->
        let shift := getLength (nodeAt g (m_node hit1)) - getOverlap (edgeAt g edge) in
        getHitOverlap g hit1 hit2
        = Z.max 0 (Z.min (m_nodeEnd hit1) (m_nodeEnd hit2 + shift)
                   - Z.max (m_nodeStart hit1) (m_nodeStart hit2 + shift)))
  /\ (m_node hit1 <> m_node hit2 ->
      m_deBruijnGraphEdges g !! (m_node hit1, m_node hit2) = None ->
      getHitOverlap g hit1 hit2 = 0)
  /\ 0 <= getHitOverlap g hit1 hit2.
Proof.
  unfold getHitOverlap. repeat split.
  - intros ->. rewrite Nat.eqb_refl. apply spanOverlap_max.
  - intros edge Hne Hedge. cbv zeta.
    destruct (Nat.eqb_spec (m_node hit1) (m_node hit2)); [contradiction|].
    rewrite Hedge, spanOverlap_max. f_equal. f_equal; f_equal; lia.
  - intros Hne Hnone.
    destruct (Nat.eqb_spec (m_node hit1) (m_node hit2)); [contradiction|].
    now rewrite Hnone.
  - destruct (m_node hit1 =? m_node hit2)%nat; [rewrite spanOverlap_max; lia|].
    destruct (m_deBruijnGraphEdges g !! (m_node hit1, m_node hit2));
      [rewrite spanOverlap_max; lia|lia].
Qed.

(** The two hits of the worked example: the span [1,30] of the second hit
    becomes [91,120] in the frame of the first node, and the function returns
    min(100,120) - max(81,91) = 9. Two hits with the same spans on one node
    overlap by 20. *)
Example getHitOverlap_example :
  getHitOverlap exampleGraph exampleHit1 exampleHit2 = 9
  /\ getHitOverlap exampleGraph exampleHit2 exampleHit1 = 0
  /\ getHitOverlap exampleGraph exampleHit1 exampleHit1 = 20.
Proof. repeat split; vm_compute; reflexivity. Qed.

(** The two computed cases count differently: two spans that share the one
    base 100 overlap by 1 on the same node, and by 0 when the second span
    reaches base 100 through the edge (span [10,30] of 2+, moved by 90). *)
Example getHitOverlap_one_base :
  let onFirst := mkHit 0%nat 100 120 21 41 100%float 21 0 0 (mkSciNot 1%float (-10)) in
  let onSecond := mkHit 1%nat 10 30 21 41 100%float 21 0 0 (mkSciNot 1%float (-10)) in
  getHitOverlap exampleGraph exampleHit1 onFirst = 1
  /\ getHitOverlap exampleGraph exampleHit1 onSecond = 0.
Proof. cbv zeta. split; vm_compute; reflexivity. Qed.

(** *** The constructor *)

Lemma fold_left_invariant {A B : Type} (P : A -> Prop) (f : A -> B -> A) (R : B -> Prop) :
  (forall a b, P a -> R b -> P (f a b)) ->
  forall l a, P a -> (forall b, In b l -> R b) -> P (fold_left f l a).
Proof.
  intros Hstep. induction l as [|b l IH]; intros a Ha Hl; cbn [fold_left]; [exact Ha|].
  apply IH.
  - apply Hstep; [exact Ha|]. apply Hl. now left.
  - intros b' Hb'. apply Hl. now right.
Qed.

Lemma StronglySorted_snoc (l : list Hit) (h : Hit) :
  StronglySorted queryStartLt l ->
  (forall x, In x l -> queryStartLt x h) ->
  StronglySorted queryStartLt (l ++ [h]).
Proof.
  induction l as [|a l IH]; intros Hs Hall; cbn [app].
  - repeat constructor.
  - inversion Hs as [|? ? Hs' Ha]; subst. constructor.
    + apply IH; [exact Hs'|]. intros x Hx. apply Hall. now right.
    + apply Forall_app. split; [exact Ha|]. constructor; [|constructor].
      apply Hall. now left.
Qed.

Lemma admitHit_invariant path query i st hit :
  (i < List.length (nodes path))%nat ->
  ctorInvariant path query st ->
  In hit (getHits query) /\ nth i (nodes path) 0%nat = m_node hit ->
  ctorInvariant path query (admitHit path i st hit).
Proof.
  intros Hi Hinv [Hin Hnode]. pose proof Hinv as [Hsorted [Hadm Hprev]].
  destruct st as [hits previousHit]. cbn [fst snd] in *. unfold admitHit.
  destruct ((negb (i =? 0)%nat || (m_nodeStart hit >=? startPosition path))
            && (negb (i =? List.length (nodes path) - 1)%nat
                || (m_nodeEnd hit <=? endPosition path))) eqn:Hbounds;
    [|exact Hinv].
  apply andb_true_iff in Hbounds as [Hstart Hend].
  assert (Hadmitted : admittedAt path query hit).
  { split; [exact Hin|]. exists i. split; [exact Hi|]. split; [exact Hnode|]. split.
    - intros ->. cbn in Hstart. lia.
    - intros Hlast. rewrite <- Hlast, Nat.eqb_refl in Hend. cbn in Hend. lia. }
  destruct previousHit as [previous|].
  - destruct (Z.gtb_spec (m_queryStart hit) (m_queryStart previous)) as [Hgt|Hle];
      [|exact Hinv].
    split; [|split]; cbn [fst snd].
    + apply StronglySorted_snoc; [exact Hsorted|]. intros x Hx.
      destruct (Hprev x Hx) as [p [[= <-] Hle]]. unfold queryStartLt. lia.
    + intros h Hh. apply in_app_or in Hh as [Hh|[<-|[]]]; [now apply Hadm|exact Hadmitted].
    + intros h Hh. exists hit. split; [reflexivity|].
      apply in_app_or in Hh as [Hh|[<-|[]]]; [|lia].
      destruct (Hprev h Hh) as [p [[= <-] Hle]]. lia.
  - destruct hits as [|x hits].
    + split; [|split]; cbn [fst snd app].
      * repeat constructor.
      * intros h [<-|[]]. exact Hadmitted.
      * intros h [<-|[]]. exists hit. split; [reflexivity|lia].
    + destruct (Hprev x (or_introl eq_refl)) as [p [Hp _]]. discriminate.
Qed.

Lemma admitNode_invariant sort path query st i :
  (forall l h, In h (sort l) -> In h l) ->
  (i < List.length (nodes path))%nat ->
  ctorInvariant path query st ->
  ctorInvariant path query (admitNode sort path query st i).
Proof.
  intros Hsort Hi Hst. unfold admitNode.
  apply (fold_left_invariant (ctorInvariant path query) (admitHit path i)
           (fun hit => In hit (getHits query) /\ nth i (nodes path) 0%nat = m_node hit)).
  - intros a b Ha Hb. now apply admitHit_invariant.
  - exact Hst.
  - intros hit Hhit. apply Hsort in Hhit. unfold hitsThisNode in Hhit.
    apply filter_In in Hhit as [Hin Hnode]. split; [exact Hin|].
    apply Nat.eqb_eq in Hnode. now rewrite Hnode.
Qed.

Lemma QueryPath_new_invariant sort path query :
  (forall l h, In h (sort l) -> In h l) ->
  let hits := m_hits (QueryPath_new sort path query) in
  StronglySorted queryStartLt hits /\ (forall h, In h hits -> admittedAt path query h).
Proof.
  intros Hsort. cbn.
  assert (H : ctorInvariant path query
                (fold_left (admitNode sort path query)
                   (seq 0 (List.length (nodes path))) ([], None))).
  { apply (fold_left_invariant (ctorInvariant path query) (admitNode sort path query)
             (fun i => (i < List.length (nodes path))%nat)).
    - intros a b Ha Hb. now apply admitNode_invariant.
    - split; [|split]; cbn [fst snd]; [constructor|intros h []|intros h []].
    - intros i Hi. apply in_seq in Hi. lia. }
  destruct H as [Hs [Ha _]]. split; assumption.
Qed.

Lemma insertHit_perm h l : Permutation (insertHit h l) (h :: l).
Proof.
  induction l as [|x l IH]; cbn [insertHit]; [reflexivity|].
  destruct (m_queryStart h <? m_queryStart x); [reflexivity|].
  rewrite IH. apply perm_swap.
Qed.

Lemma sortByQueryStart_perm l : Permutation (sortByQueryStart l) l.
Proof.
  induction l as [|x l IH]; cbn; [constructor|].
  fold (sortByQueryStart l). rewrite insertHit_perm. now constructor.
Qed.

Lemma insertHit_sorted h l :
  Sorted (fun a b => m_queryStart a <= m_queryStart b) l ->
  Sorted (fun a b => m_queryStart a <= m_queryStart b) (insertHit h l).
Proof.
  induction l as [|x l IH]; intros Hs; cbn [insertHit]; [repeat constructor|].
  destruct (Z.ltb_spec (m_queryStart h) (m_queryStart x)) as [Hlt|Hge].
  - constructor; [exact Hs|]. constructor. lia.
  - inversion Hs as [|? ? Hs' Hhd]; subst. constructor; [now apply IH|].
    destruct l as [|y l]; cbn [insertHit]; [constructor; lia|].
    inversion Hhd; subst.
    destruct (m_queryStart h <? m_queryStart y); constructor; lia.
Qed.

(** [sortByQueryStart] does what [std::sort] promises: its result is ordered
    by [m_queryStart] and holds the same hits. *)
Lemma sortByQueryStart_sorted l :
  Sorted (fun a b => m_queryStart a <= m_queryStart b) (sortByQueryStart l).
Proof.
  induction l as [|x l IH]; cbn; [constructor|]. now apply insertHit_sorted.
Qed.

(** C4 (as amended). The hit chain of a constructed QueryPath is strictly
    increasing in [m_queryStart]. Every admitted hit was admitted at an index
    of the path that holds its node, and lies inside the start bound if that
    index is the first and inside the end bound if it is the last; so, on a
    path that visits no node twice, a hit on the first node lies inside the
    start bound and a hit on the last node inside the end bound. In a path of
    two nodes with one hit on each, if the first hit lies inside the start
    bound and the second hit does not start later in the query than the first,
    the chain is the first hit alone. *)
Theorem QueryPath_new_chain (sort : list Hit -> list Hit) (path : Path) (query : Query) :
  (forall l, Permutation (sort l) l) ->
  let hits := m_hits (QueryPath_new sort path query) in
  StronglySorted queryStartLt hits
  /\ (forall h, In h hits -> admittedAt path query h)
  /\ (NoDup (nodes path) ->
      forall h, In h hits ->
        (m_node h = nth 0 (nodes path) 0%nat -> startPosition path <= m_nodeStart h)
        /\ (m_node h = nth (List.length (nodes path) - 1) (nodes path) 0%nat ->
            m_nodeEnd h <= endPosition path))
  /\ (forall a b h1 h2,
        nodes path = [a; b] ->
        hitsThisNode query a = [h1] ->
        hitsThisNode query b = [h2] ->
        startPosition path <= m_nodeStart h1 ->
        m_queryStart h2 <= m_queryStart h1 ->
        hits = [h1]).
Proof.
  intros Hperm hits.
  assert (Hsort : forall l h, In h (sort l) -> In h l).
  { intros l h Hh. eapply Permutation_in; [apply Hperm|exact Hh]. }
  destruct (QueryPath_new_invariant sort path query Hsort) as [Hsorted Hadm].
  fold hits in Hsorted, Hadm.
  split; [exact Hsorted|]. split; [exact Hadm|]. split.
  - intros Hnd h Hh. destruct (Hadm h Hh) as [_ [i [Hi [Hnode [Hfirst Hlast]]]]].
    split; intros Heq.
    + apply Hfirst. apply (proj1 (NoDup_nth (nodes path) 0%nat) Hnd); [exact Hi|lia|congruence].
    + apply Hlast. apply (proj1 (NoDup_nth (nodes path) 0%nat) Hnd); [exact Hi|lia|congruence].
  - intros a b h1 h2 Hnodes Ha Hb Hstart Hq. subst hits.
    unfold QueryPath_new. rewrite Hnodes. cbn [List.length seq fold_left m_hits].
    unfold admitNode. rewrite Hnodes. cbn [nth]. rewrite Ha, Hb.
    rewrite (Permutation_length_1_inv (Permutation_sym (Hperm [h1]))).
    rewrite (Permutation_length_1_inv (Permutation_sym (Hperm [h2]))).
    cbn [fold_left]. unfold admitHit. rewrite Hnodes. cbn [List.length Nat.sub Nat.eqb negb orb andb].
    destruct (Z.geb_spec (m_nodeStart h1) (startPosition path)); [|lia].
    cbn [andb]. cbv beta iota.
    destruct (Z.gtb_spec (m_queryStart h2) (m_queryStart h1)); [lia|].
    now destruct (m_nodeEnd h2 <=? endPosition path).
Qed.

(** The theorem with [sortByQueryStart] on the path over 1+ and 2+ and the
    query whose second hit starts earlier than its first: the chain is the
    first hit. *)
Lemma QueryPath_new_chain_witness :
  m_hits (QueryPath_new sortByQueryStart examplePath reversedQuery) = [laterHit1].
Proof.
  apply (QueryPath_new_chain sortByQueryStart examplePath reversedQuery
           sortByQueryStart_perm) with (a := 0%nat) (b := 1%nat) (h2 := earlierHit2).
  - reflexivity.
  - reflexivity.
  - reflexivity.
  - cbn. lia.
  - cbn. lia.
Defined.

(** C4 as stated fails when the first hit is clipped away. On [clippedPath]
    the hit on 1+ starts before the start position and is rejected, so the hit
    on 2+ is admitted although it starts earlier in the query. *)
Lemma QueryPath_new_clipped_counterexample :
  nodes clippedPath = [0%nat; 1%nat]
  /\ hitsThisNode reversedQuery 0%nat = [laterHit1]
  /\ hitsThisNode reversedQuery 1%nat = [earlierHit2]
  /\ m_queryStart earlierHit2 <= m_queryStart laterHit1
  /\ m_hits (QueryPath_new sortByQueryStart clippedPath reversedQuery) = [earlierHit2].
Proof.
  split; [reflexivity|]. split; [reflexivity|]. split; [reflexivity|].
  split; [cbn; lia|reflexivity].
Qed.

(** The same step of the constructor seen on a path that visits a node
    twice: on the path 1+, 1+ the hit on 1+ is rejected at index 0, where the
    start bound applies, and admitted at index 1. *)
Example QueryPath_new_revisited_node :
  m_hits (QueryPath_new sortByQueryStart (mkPath [0%nat; 0%nat] 90 100) reversedQuery)
  = [laterHit1].
Proof. reflexivity. Qed.

Example QueryPath_new_example :
  m_hits (QueryPath_new sortByQueryStart examplePath exampleQuery)
  = [exampleHit1; exampleHit2].
Proof. reflexivity. Qed.

(** *** The metrics of a path without hits *)

(** C7. For a QueryPath with no admitted hit the mean percent identity is 0,
    the path query coverage is 0 and the relative length discrepancy is the
    largest double. The remaining length metrics are not defined there:
    [getHitQueryLength] takes [m_hits.front()] of the empty vector without the
    test that its siblings make, and [getRelativePathLength] and
    [getAbsolutePathLengthDifference] call it unguarded. *)
Theorem zero_hits_metrics (X : Collaborators) (path : Path) (query : Query) :
  let qp := mkQueryPath path query [] in
  getMeanHitPercIdentity qp = 0%float
  /\ getPathQueryCoverage qp = 0%float
  /\ getRelativeLengthDiscrepancy X qp = Some DBL_MAX
  /\ queryStart qp = -1
  /\ queryEnd qp = -1
  /\ getHitQueryLength qp = None
  /\ getRelativePathLength X qp = None
  /\ getAbsolutePathLengthDifference X qp = None.
Proof. cbv zeta. repeat split. Qed.

(** Such a QueryPath is what the constructor builds from a query that has no
    hit on the path. *)
Example QueryPath_new_no_hits :
  m_hits (QueryPath_new sortByQueryStart examplePath (mkQuery [] 50 NUCLEOTIDE)) = [].
Proof. reflexivity. Qed.

(** The worked example: the chain of two hits covers the query positions 1
    to 50, the path is as long as it should be and covers the whole query. *)
Example length_metrics_example :
  let X := exampleCollaborators (fun v _ => v) in
  let qp := QueryPath_new sortByQueryStart examplePath exampleQuery in
  getHitQueryLength qp = Some 50
  /\ getAbsolutePathLengthDifference X qp = Some 90
  /\ getPathQueryCoverage qp = 1%float
  /\ getMeanHitPercIdentity qp = 100%float.
Proof. cbv zeta. repeat split; vm_compute; reflexivity. Qed.

(** With at least one hit the length metrics are defined. *)
Lemma getHitQueryLength_defined qp :
  m_hits qp <> [] -> exists n, getHitQueryLength qp = Some n.
Proof.
  intros Hne. unfold getHitQueryLength. destruct (m_hits qp) as [|h rest]; [contradiction|].
  cbn [front back hd_error]. eauto.
Qed.

(** [getRelativeLengthDiscrepancy] tests for the empty chain first, so it is
    defined for every QueryPath. *)
Lemma getRelativeLengthDiscrepancy_total X qp :
  exists d, getRelativeLengthDiscrepancy X qp = Some d.
Proof.
  unfold getRelativeLengthDiscrepancy.
  destruct (m_hits qp) as [|h rest] eqn:Hhits; [eauto|].
  destruct (getHitQueryLength_defined qp) as [n ->]; [rewrite Hhits; discriminate|eauto].
Qed.

(** *** [getEvalueProduct] *)

(** Multiplying by the [1.0] of [coefficientProduct] is exact in binary64.
    The mantissa of [1.0] is [2^52] with exponent [-52]; the product of the
    mantissas is shifted back by 52 places without rounding. *)
Lemma digits2_shift52 (m : positive) :
  Zpos (digits2_pos (4503599627370496 * m)) = Zpos (digits2_pos m) + 52.
Proof. cbv [Pos.mul]. cbn [digits2_pos]. lia. Qed.

Lemma SF64mul_1_l (s : spec_float) :
  valid_binary s = true ->
  SF64mul (S754_finite false 4503599627370496 (-52)) s = s.
Proof.
  intros Hvalid. destruct s as [sg|sg| |sg m e]; try reflexivity.
  cbn [SpecFloat.valid_binary] in Hvalid. unfold bounded, canonical_mantissa in Hvalid.
  apply andb_prop in Hvalid as [Hcanon Hbound].
  apply Z.eqb_eq in Hcanon.
  unfold SF64mul, SFmul, binary_round_aux.
  unfold shr_fexp at 1. unfold Zdigits2.
  rewrite digits2_shift52.
  replace (Z.pos (digits2_pos m) + 52 + (-52 + e)) with (Z.pos (digits2_pos m) + e) by lia.
  rewrite Hcanon.
  replace (e - (-52 + e)) with 52 by lia.
  cbn [shr_record_of_loc shr]. cbv [Pos.mul].
  cbv [iter_pos shr_1 orb].
  cbn [shr_m loc_of_shr_record round_nearest_even].
  unfold shr_fexp, Zdigits2. replace (-52 + e + 52) with e by lia.
  rewrite Hcanon, Z.sub_diag. cbn [shr shr_record_of_loc shr_m].
  rewrite Hbound. reflexivity.
Qed.

Lemma double_mul_1_l (x : double) : (1 * x)%float = x.
Proof.
  apply Prim2SF_inj. rewrite FloatAxioms.mul_spec.
  change (Prim2SF 1) with (S754_finite false 4503599627370496 (-52)).
  apply SF64mul_1_l, Prim2SF_valid.
Qed.

(** C8. For a QueryPath whose chain is the single hit [h], [getEvalueProduct]
    is the e-value of [h]: the hit has no neighbour, no length is removed and
    [SciNot::power] is not applied; the product is rebuilt by the [SciNot]
    constructor from [1.0 * coefficient] and [0 + exponent], which are the
    coefficient and the exponent of the hit. The side condition says that the
    e-value of the hit is in the normal form of that constructor, as every
    [SciNot] built by it is. *)
Theorem getEvalueProduct_single_hit (X : Collaborators) (g : AssemblyGraph)
    (qp : QueryPath) (h : Hit) :
  m_hits qp = [h] ->
  SciNot_make X (getCoefficient (m_eValue h)) (getExponent (m_eValue h)) = m_eValue h ->
  getEvalueProduct X g qp = m_eValue h.
Proof.
  intros Hhits Hnorm. unfold getEvalueProduct. rewrite Hhits.
  cbn [List.length seq fold_left]. unfold evalueStep.
  cbn [nth List.length Nat.sub Nat.ltb Nat.leb].
  change (PrimFloat.ltb 0 0) with false. cbv beta iota.
  rewrite double_mul_1_l, Z.add_0_l. exact Hnorm.
Qed.

(** The theorem at the first hit of the worked example, whose e-value is
    1e-50. *)
Lemma getEvalueProduct_single_hit_witness :
  getEvalueProduct (exampleCollaborators (fun v _ => v)) exampleGraph
    (mkQueryPath examplePath exampleQuery [exampleHit1])
  = mkSciNot 1%float (-50).
Proof.
  apply (getEvalueProduct_single_hit (exampleCollaborators (fun v _ => v)) exampleGraph
           (mkQueryPath examplePath exampleQuery [exampleHit1]) exampleHit1).
  - reflexivity.
  - reflexivity.
Defined.

(** With a neighbour that overlaps, the e-value of a hit is discounted: the
    two hits of the worked example overlap by 9, so [SciNot::power] is applied
    to both (here with a [power] that marks its result by the exponent 0). *)
Example getEvalueProduct_two_hits :
  getEvalueProduct (exampleCollaborators (fun v _ => mkSciNot (getCoefficient v) 0))
    exampleGraph (mkQueryPath examplePath exampleQuery [exampleHit1; exampleHit2])
  = mkSciNot 1%float 0.
Proof. vm_compute. reflexivity. Qed.

(** *** The ranking *)

(** C5. [operator<] is the ranking of the spec: it returns, for every two
    QueryPaths, whether the first is better by the e-value product ascending,
    then the mean percent identity descending, then the absolute relative
    length discrepancy ascending, then the hits query coverage descending,
    and false when all four tie. In particular a QueryPath whose e-value
    product is different from and less than that of another is better than
    it, whatever the other keys are. *)
Theorem QueryPath_lt_ranking (X : Collaborators) (g : AssemblyGraph) (a b : QueryPath) :
  (exists aDiscrepancy bDiscrepancy,
      getRelativeLengthDiscrepancy X a = Some aDiscrepancy
      /\ getRelativeLengthDiscrepancy X b = Some bDiscrepancy
      /\ QueryPath_lt X g a b
         = Some (isBetter (rankingVerdict X g a b aDiscrepancy bDiscrepancy))
      /\ (rankingVerdict X g a b aDiscrepancy bDiscrepancy = Tie ->
          QueryPath_lt X g a b = Some false))
  /\ (SciNot_ne X (getEvalueProduct X g a) (getEvalueProduct X g b) = true ->
      SciNot_lt X (getEvalueProduct X g a) (getEvalueProduct X g b) = true ->
      QueryPath_lt X g a b = Some true).
Proof.
  split.
  - destruct (getRelativeLengthDiscrepancy_total X a) as [da Ha].
    destruct (getRelativeLengthDiscrepancy_total X b) as [db Hb].
    exists da, db. split; [exact Ha|]. split; [exact Hb|].
    assert (Heq : QueryPath_lt X g a b = Some (isBetter (rankingVerdict X g a b da db))).
    { unfold QueryPath_lt, rankingVerdict, compareKey. rewrite Ha, Hb.
      destruct (SciNot_ne X _ _); [now destruct (SciNot_lt X _ _)|].
      destruct (double_ne (getMeanHitPercIdentity a) _); [now destruct (double_gt _ _)|].
      destruct (double_ne (PrimFloat.abs da) _); [now destruct (double_lt _ _)|].
      destruct (double_ne (getHitsQueryCoverage X a) _); [now destruct (double_gt _ _)|].
      reflexivity. }
    split; [exact Heq|]. intros Htie. now rewrite Heq, Htie.
  - intros Hne Hlt. unfold QueryPath_lt. now rewrite Hne, Hlt.
Qed.

(** Two QueryPaths that differ in the e-value of their single hit only,
    1e-50 against 1e-10: the first is better than the second, and the second
    is not better than the first. *)
Example QueryPath_lt_evalues :
  let X := exampleCollaborators (fun v _ => v) in
  let a := mkQueryPath examplePath exampleQuery [exampleHit1] in
  let b := mkQueryPath examplePath exampleQuery
             [mkHit 0%nat 81 100 1 20 100%float 20 0 0 (mkSciNot 1%float (-10))] in
  getEvalueProduct X exampleGraph a = mkSciNot 1%float (-50)
  /\ getEvalueProduct X exampleGraph b = mkSciNot 1%float (-10)
  /\ QueryPath_lt X exampleGraph a b = Some true
  /\ QueryPath_lt X exampleGraph b a = Some false.
Proof. cbv zeta. repeat split; vm_compute; reflexivity. Qed.

(* ================================================================== *)
(** * Part III. Further properties of the modelled code                *)
(* ================================================================== *)

(** ** Edges and their ends *)

(** X1. For a node that is one of the two ends of an edge, [getOtherNode]
    returns an end of the edge, applying it twice gives the node back, and on
    an edge between two different nodes it never returns the node it was
    given. *)
Theorem getOtherNode_involutive (this : DeBruijnEdge) (node : NodePtr) :
  node = m_startingNode this \/ node = m_endingNode this ->
  (getOtherNode this node = m_startingNode this
   \/ getOtherNode this node = m_endingNode this)
  /\ getOtherNode this (getOtherNode this node) = node
  /\ (m_startingNode this <> m_endingNode this -> getOtherNode this node <> node).
Proof.
  unfold getOtherNode. intros [->| ->].
  - rewrite Nat.eqb_refl. split; [now right|]. split.
    + destruct (Nat.eqb_spec (m_endingNode this) (m_startingNode this)); congruence.
    + congruence.
  - destruct (Nat.eqb_spec (m_endingNode this) (m_startingNode this)) as [Heq|Hne].
    + rewrite Heq, Nat.eqb_refl. split; [now right|]. split; congruence.
    + rewrite Nat.eqb_refl. split; [now left|]. split; congruence.
Qed.

Lemma getOtherNode_involutive_witness :
  getOtherNode (edgeAt cycle3 1%nat) (getOtherNode (edgeAt cycle3 1%nat) 2%nat) = 2%nat.
Proof.
  exact (proj1 (proj2 (getOtherNode_involutive (edgeAt cycle3 1%nat) 2%nat
                         (or_intror eq_refl)))).
Defined.

(** ** Paths emitted by the enumeration *)

Section TracePathsWalks.

Variable g : AssemblyGraph.
Variable forward : bool.

Lemma followsEdges_snoc : forall p u v,
  followsEdges g forward (p ++ [u]) ->
  (exists e, In e (findNextEdgesInPath g u forward) /\ nextNodeOf g forward e = v) ->
  followsEdges g forward ((p ++ [u]) ++ [v]).
Proof.
  induction p as [|a p IH]; intros u v Hp He.
  - cbn. split; [exact He|exact I].
  - destruct p as [|b p].
    + cbn in *. destruct Hp as [Hab _]. split; [exact Hab|]. split; [exact He|exact I].
    + cbn [app followsEdges] in *. destruct Hp as [Hab Hrest].
      split; [exact Hab|]. apply (IH u v Hrest He).
Qed.

(** The loop, when the callback is known on the edges of the list only. *)
Lemma tracePaths_loop_emits_in (Q : list NodePtr -> Prop) rec startingNode pathSoFar all :
  Q pathSoFar ->
  (forall e acc r, In e all -> rec e acc = Some r ->
                   exists new, r = acc ++ new /\ Forall Q new) ->
  forall nextEdges acc r,
    incl nextEdges all ->
    tracePaths_loop rec g forward startingNode pathSoFar nextEdges acc = Some r ->
    exists new, r = acc ++ new /\ Forall Q new.
Proof.
  intros HQ Hrec. induction nextEdges as [|e rest IH]; intros acc r Hincl;
    cbn [tracePaths_loop].
  - intros [= <-]. exists []. split; [now rewrite app_nil_r|constructor].
  - assert (Hrest : incl rest all) by (intros x Hx; apply Hincl; now right).
    destruct (_ =? startingNode)%nat.
    { intros Hr. destruct (IH _ _ Hrest Hr) as [new [-> Hnew]].
      exists (pathSoFar :: new). split; [now rewrite <- app_assoc|now constructor]. }
    destruct (_ <? 2)%nat; [|now apply IH].
    destruct (rec e acc) as [acc'|] eqn:Hcall; [|discriminate].
    intros Hr. destruct (Hrec _ _ _ (Hincl e (or_introl eq_refl)) Hcall) as [new1 [-> Hnew1]].
    destruct (IH _ _ Hrest Hr) as [new2 [-> Hnew2]].
    exists (new1 ++ new2). split; [now rewrite app_assoc|now apply Forall_app].
Qed.

(** Every path that a call adds satisfies any property [Q] that holds of the
    path after the first push and is kept when the node that a next edge of
    the last node leads to is pushed. *)
Lemma tracePaths_emits_along (Q : list NodePtr -> Prop) startingNode :
  (forall p u e, Q (p ++ [u]) -> In e (findNextEdgesInPath g u forward) ->
                 Q ((p ++ [u]) ++ [nextNodeOf g forward e])) ->
  forall fuel this steps acc p r,
    Q (p ++ [nextNodeOf g forward this]) ->
    tracePaths fuel g this forward steps acc startingNode p = Some r ->
    exists new, r = acc ++ new /\ Forall Q new.
Proof.
  intros Hstep. induction fuel as [|fuel IH]; intros this steps acc p r HQ; [discriminate|].
  cbn [tracePaths].
  assert (Hone : exists new,
             acc ++ [p ++ [nextNodeOf g forward this]] = acc ++ new /\ Forall Q new).
  { exists [p ++ [nextNodeOf g forward this]]. split; [reflexivity|]. now repeat constructor. }
  destruct (steps - 1 =? 0); [intros [= <-]; exact Hone|].
  destruct (findNextEdgesInPath g (nextNodeOf g forward this) forward) as [|e0 es] eqn:Hnext;
    [intros [= <-]; exact Hone|].
  apply (tracePaths_loop_emits_in Q) with (all := e0 :: es);
    [exact HQ| |apply incl_refl].
  intros e acc' r' Hin Hcall. eapply IH; [|exact Hcall].
  apply Hstep; [exact HQ|]. rewrite Hnext. exact Hin.
Qed.

(** With a positive number of steps no emitted path grows beyond the path so
    far by more than that number of nodes. *)
Lemma tracePaths_emits_bounded startingNode (N : Z) : forall fuel this steps acc p r,
  1 <= steps ->
  Z.of_nat (List.length p) + steps <= N ->
  tracePaths fuel g this forward steps acc startingNode p = Some r ->
  exists new, r = acc ++ new /\ Forall (fun q => Z.of_nat (List.length q) <= N) new.
Proof.
  induction fuel as [|fuel IH]; intros this steps acc p r Hsteps HN; [discriminate|].
  cbn [tracePaths].
  assert (Hlen : Z.of_nat (List.length (p ++ [nextNodeOf g forward this])) <= N).
  { rewrite length_app. cbn [List.length]. lia. }
  assert (Hone : exists new,
             acc ++ [p ++ [nextNodeOf g forward this]] = acc ++ new
             /\ Forall (fun q => Z.of_nat (List.length q) <= N) new).
  { exists [p ++ [nextNodeOf g forward this]]. split; [reflexivity|]. now repeat constructor. }
  destruct (Z.eqb_spec (steps - 1) 0) as [|Hnz]; [intros [= <-]; exact Hone|].
  destruct (findNextEdgesInPath g (nextNodeOf g forward this) forward) as [|e0 es];
    [intros [= <-]; exact Hone|].
  apply (tracePaths_loop_emits g forward (fun q => Z.of_nat (List.length q) <= N));
    [exact Hlen|].
  intros e acc' r' _ Hcall. eapply IH; [| |exact Hcall]; [lia|].
  rewrite length_app. cbn [List.length]. lia.
Qed.

End TracePathsWalks.

(** X2. Every path that the enumeration emits is a walk in the graph: it
    begins with the node that the start edge leads to, and each of its nodes
    is led to, in the direction of the traversal, by one of the next edges of
    the node before it. The enumeration returns for every graph, edge,
    direction, step bound and starting node. *)
Theorem tracePaths_emits_walks (g : AssemblyGraph) (this : EdgePtr) (forward : bool)
    (maxSteps : Z) (startingNode : NodePtr) :
  exists paths,
    tracePaths_run g this forward maxSteps startingNode = Some paths
    /\ Forall (fun p => (exists rest, p = nextNodeOf g forward this :: rest)
                        /\ followsEdges g forward p) paths.
Proof.
  destruct (tracePaths_total g forward this maxSteps startingNode) as [paths Hrun].
  exists paths. split; [exact Hrun|].
  unfold tracePaths_run in Hrun.
  set (Q := fun p : list NodePtr =>
              (exists rest, p = nextNodeOf g forward this :: rest)
              /\ followsEdges g forward p).
  assert (Hstep : forall p u e, Q (p ++ [u]) -> In e (findNextEdgesInPath g u forward) ->
                    Q ((p ++ [u]) ++ [nextNodeOf g forward e])).
  { intros p u e [[rest Hp] Hwalk] Hin. split.
    - rewrite Hp. now exists (rest ++ [nextNodeOf g forward e]).
    - apply followsEdges_snoc; [exact Hwalk|]. now exists e. }
  assert (HQ : Q ([] ++ [nextNodeOf g forward this])).
  { split; [now exists []|exact I]. }
  destruct (tracePaths_emits_along g forward Q startingNode Hstep _ _ _ _ _ _ HQ Hrun)
    as [new [-> Hall]].
  exact Hall.
Qed.

(** X3. With a step bound of at least 1, every path that the enumeration
    emits has at least one node and at most as many nodes as the bound. *)
Theorem tracePaths_length_bounded (g : AssemblyGraph) (this : EdgePtr) (forward : bool)
    (maxSteps : Z) (startingNode : NodePtr) :
  1 <= maxSteps ->
  exists paths,
    tracePaths_run g this forward maxSteps startingNode = Some paths
    /\ Forall (fun p => 1 <= Z.of_nat (List.length p) <= maxSteps) paths.
Proof.
  intros Hsteps.
  destruct (tracePaths_total g forward this maxSteps startingNode) as [paths Hrun].
  exists paths. split; [exact Hrun|].
  unfold tracePaths_run in Hrun.
  destruct (tracePaths_emits_bounded g forward startingNode maxSteps
              (traversalFuel g) this maxSteps [] [] paths
              Hsteps ltac:(cbn; lia) Hrun) as [new [Heq Hbound]].
  destruct (tracePaths_emits g forward (fun q => q <> []) startingNode
              ltac:(intros q e _ _; now destruct q)
              (traversalFuel g) this maxSteps [] [] paths
              ltac:(discriminate) Hrun) as [new' [Heq' Hne]].
  cbn [app] in Heq, Heq'. subst new new'.
  rewrite Forall_forall in *. intros p Hp. split; [|now apply Hbound].
  specialize (Hne p Hp). destruct p; [congruence|]. cbn [List.length]. lia.
Qed.

(** The bound on the cycle A -> B -> C -> A with two steps. *)
Lemma tracePaths_length_bounded_witness :
  exists paths,
    tracePaths_run cycle3 0%nat true 2 7%nat = Some paths
    /\ Forall (fun p => 1 <= Z.of_nat (List.length p) <= 2) paths.
Proof. apply (tracePaths_length_bounded cycle3 0%nat true 2 7%nat). lia. Defined.

(** ** Verdicts of the search for a single target *)

Lemma traversalFuel_ge_3 g : (3 <= traversalFuel g)%nat.
Proof.
  unfold traversalFuel.
  pose proof (nextNodeOf_graphNodes g true 0%nat) as Hin.
  destruct (graphNodes g); [destruct Hin|]. cbn [List.length]. lia.
Qed.

(** X4. The verdict can be true although the target is never reached. When
    the start edge leads to a node that is neither the origin nor the target
    and whose only next edge is a loop back to that node, every branch of the
    search is cut by the visited-twice rule and [leadsOnlyToNode] returns
    true, for every step bound other than 1 and 2. *)
Theorem leadsOnlyToNode_true_on_self_loop (g : AssemblyGraph) (this e : EdgePtr)
    (forward : bool) (maxSteps : Z) (target origin : NodePtr)
    (includeReverseComplement : bool) :
  nextNodeOf g forward this <> origin ->
  reachesTarget g target includeReverseComplement (nextNodeOf g forward this) = false ->
  findNextEdgesInPath g (nextNodeOf g forward this) forward = [e] ->
  nextNodeOf g forward e = nextNodeOf g forward this ->
  maxSteps <> 1 -> maxSteps <> 2 ->
  leadsOnlyToNode_run g this forward maxSteps target [origin] includeReverseComplement
  = Some true.
Proof.
  intros Hno Htg Hnext Hloop H1 H2. unfold leadsOnlyToNode_run.
  apply (leadsOnlyToNode_fuel_mono g forward target includeReverseComplement 2);
    [pose proof (traversalFuel_ge_3 g); lia|].
  unfold reachesTarget in Htg. apply orb_false_iff in Htg as [Ht1 Ht2].
  set (n := nextNodeOf g forward this) in *.
  assert (Hon : (origin =? n)%nat = false) by (apply Nat.eqb_neq; congruence).
  cbn [leadsOnlyToNode app nth]. fold n.
  destruct (Nat.eqb_spec n origin) as [|_]; [congruence|].
  rewrite Ht1, Ht2.
  destruct (Z.eqb_spec (maxSteps - 1) 0) as [|_]; [lia|].
  rewrite Hnext. cbn [leadsOnlyToNode_loop]. rewrite Hloop.
  unfold timesNodeInPath at 1. cbn [fold_left]. rewrite Hon, Nat.eqb_refl. cbn [Nat.add Nat.ltb Nat.leb].
  destruct (Nat.eqb_spec n origin) as [|_]; [congruence|].
  rewrite Ht1, Ht2.
  destruct (Z.eqb_spec (maxSteps - 1 - 1) 0) as [|_]; [lia|].
  rewrite Hnext. cbn [leadsOnlyToNode_loop]. rewrite Hloop.
  unfold timesNodeInPath. cbn [fold_left]. rewrite Hon, Nat.eqb_refl.
  reflexivity.
Qed.

(** In [selfLoopGraph] the search from the edge O -> A for the target T,
    which no edge leads to, succeeds. *)
Lemma leadsOnlyToNode_true_on_self_loop_witness :
  leadsOnlyToNode_run selfLoopGraph 0%nat true 10 2%nat [0%nat] false = Some true.
Proof.
  apply (leadsOnlyToNode_true_on_self_loop selfLoopGraph 0%nat 1%nat true 10 2%nat 0%nat false);
    try reflexivity; cbn; lia.
Defined.

Section LeadsOnlyToNodeDeadEnds.

Variable g : AssemblyGraph.
Variable forward : bool.
Variable target : NodePtr.
Variable rc : bool.

Ltac slack_step H :=
  let Hslack := fresh "Hslack" in
  pose proof (slack_push (graphNodes g) _ _ (graphNodes_NoDup g)
                (nextNodeOf_graphNodes g forward _) H) as Hslack.




End LeadsOnlyToNodeDeadEnds.



(** ** The overlap resolver on nodes without sequence, and after [setSequence] *)

Lemma getBaseAt_no_sequence n i : m_sequence n = [] -> getBaseAt n i = Ascii.zero.
Proof.
  intros Hseq. unfold getBaseAt. rewrite Hseq. cbn [List.length].
  destruct (_ && _); [destruct (Z.to_nat i)|]; reflexivity.
Qed.

(** X6. For an edge between two nodes whose sequences are empty (their
    length is known, their bases are not held), [testExactOverlap] compares
    NUL with NUL and accepts every overlap; so, whenever the shorter node is at least
    [minCandidate] long and the candidate range is not empty,
    [autoDetermineExactOverlap] stores the random starting point of its
    search, [min + rand() % (max - min + 1)], as the overlap of the edge. *)
Theorem autoDetermineExactOverlap_missing_sequences (s : Settings) (rnd : N)
    (g : AssemblyGraph) (this : DeBruijnEdge) :
  m_sequence (nodeAt g (m_startingNode this)) = [] ->
  m_sequence (nodeAt g (m_endingNode this)) = [] ->
  (forall k, testExactOverlap g this k = true)
  /\ (minAutoFindEdgeOverlap s <= Z.min (shorterNodeLen g this) (maxAutoFindEdgeOverlap s) ->
      autoDetermineExactOverlap s rnd g this
      = Some (setOverlap this AUTO_DETERMINED_EXACT_OVERLAP
                (minAutoFindEdgeOverlap s
                 + Z.rem (Z.of_N rnd)
                     (Z.min (shorterNodeLen g this) (maxAutoFindEdgeOverlap s)
                      - minAutoFindEdgeOverlap s + 1)))).
Proof.
  intros Hs Ht.
  assert (Hall : forall k, testExactOverlap g this k = true).
  { intros k. apply testExactOverlap_iff. intros j _.
    now rewrite !getBaseAt_no_sequence. }
  split; [exact Hall|]. intros Hrange.
  unfold autoDetermineExactOverlap. fold (shorterNodeLen g this).
  set (sh := shorterNodeLen g this) in *.
  set (mn := minAutoFindEdgeOverlap s) in *.
  set (mx := maxAutoFindEdgeOverlap s) in *.
  destruct (Z.ltb_spec sh mn) as [|_]; [lia|].
  replace (Z.min sh mn) with mn by lia.
  destruct (Z.eqb_spec (Z.min sh mx - mn + 1) 0) as [|_]; [lia|].
  destruct (Z.to_nat (Z.min sh mx - mn + 1)) as [|left] eqn:Hleft; [lia|].
  cbn [autoDetermine_loop].
  now rewrite testExactOverlap_setOverlap, Hall.
Qed.

(** Two nodes of length 100 without sequence, candidates 1 to 20 and
    [rand() = 7]: the overlap stored is 8. *)
Lemma autoDetermineExactOverlap_missing_sequences_witness :
  (forall k, testExactOverlap noSequenceGraph (edgeAt noSequenceGraph 0%nat) k = true)
  /\ option_map m_overlap
       (autoDetermineExactOverlap (mkSettings 1 20) 7%N noSequenceGraph
          (edgeAt noSequenceGraph 0%nat)) = Some 8.
Proof.
  destruct (autoDetermineExactOverlap_missing_sequences (mkSettings 1 20) 7%N
              noSequenceGraph (edgeAt noSequenceGraph 0%nat) eq_refl eq_refl)
    as [Hall Hauto].
  split; [exact Hall|]. rewrite Hauto; [reflexivity|]. vm_compute. discriminate.
Defined.

(** X7. When exactly one overlap of the candidate range passes
    [testExactOverlap], [autoDetermineExactOverlap] stores that overlap
    whatever [rand()] returns: the random starting point of the search has no
    influence on the result. *)
Theorem autoDetermineExactOverlap_unique (s : Settings) (g : AssemblyGraph)
    (this : DeBruijnEdge) (k0 : Z) :
  maxAutoFindEdgeOverlap s - minAutoFindEdgeOverlap s + 1 <> 0 ->
  minAutoFindEdgeOverlap s <= shorterNodeLen g this ->
  inCandidateRange s g this k0 ->
  testExactOverlap g this k0 = true ->
  (forall k, inCandidateRange s g this k -> testExactOverlap g this k = true -> k = k0) ->
  forall rnd,
    autoDetermineExactOverlap s rnd g this
    = Some (setOverlap this AUTO_DETERMINED_EXACT_OVERLAP k0).
Proof.
  intros Hdiv Hlong Hk0 Hpass Huniq rnd.
  destruct (autoDetermineExactOverlap_search s rnd g this Hdiv)
    as [this' [Hrun [Htype [Hstart [Hend [Hfound _]]]]]].
  destruct (Hfound Hlong (ex_intro _ k0 (conj Hk0 Hpass))) as [Hin Hok].
  rewrite Hrun. f_equal.
  pose proof (Huniq _ Hin Hok) as Hov.
  destruct this' as [a b c t ov], this as [a0 b0 c0 t0 ov0]. cbn in *.
  unfold autoDetermineExactOverlap in Hrun. cbn in Hrun.
  repeat match type of Hrun with
         | context [if ?c then _ else _] => destruct c
         end; inversion Hrun; subst; reflexivity.
Qed.

(** The nodes GGACG and ACGTT with the candidates 1 to 5: only the overlap 3
    passes, and it is stored for every value of [rand()]. *)
Lemma autoDetermineExactOverlap_unique_witness :
  autoDetermineExactOverlap (mkSettings 1 5) 0%N overlapGraph (edgeAt overlapGraph 0%nat)
  = Some (mkEdge 0%nat 1%nat 0%nat AUTO_DETERMINED_EXACT_OVERLAP 3)
  /\ autoDetermineExactOverlap (mkSettings 1 5) 4%N overlapGraph (edgeAt overlapGraph 0%nat)
     = Some (mkEdge 0%nat 1%nat 0%nat AUTO_DETERMINED_EXACT_OVERLAP 3).
Proof.
  assert (H : forall rnd,
             autoDetermineExactOverlap (mkSettings 1 5) rnd overlapGraph
               (edgeAt overlapGraph 0%nat)
             = Some (mkEdge 0%nat 1%nat 0%nat AUTO_DETERMINED_EXACT_OVERLAP 3));
    [|split; apply H].
  apply (autoDetermineExactOverlap_unique (mkSettings 1 5) overlapGraph
           (edgeAt overlapGraph 0%nat) 3).
  - vm_compute. discriminate.
  - vm_compute. discriminate.
  - split; vm_compute; discriminate.
  - reflexivity.
  - intros k Hk Hpass.
    change (1 <= k <= 3 + 2) in Hk.
    assert (Hcases : k = 1 \/ k = 2 \/ k = 3 \/ k = 4 \/ k = 5) by lia.
    destruct Hcases as [->|[->|[->|[->| ->]]]];
      try reflexivity; vm_compute in Hpass; discriminate.
Defined.

Lemma nodeAt_setSequence_eq F g p s :
  (p < List.length (g_nodes g))%nat ->
  nodeAt (Node_setSequence F g p s) p = setSequence F (nodeAt g p) s.
Proof.
  intros Hp. unfold nodeAt at 1. unfold Node_setSequence. cbn [g_nodes].
  rewrite nth_lookup, list_lookup_insert_eq by exact Hp. reflexivity.
Qed.

Lemma nodeAt_setSequence_ne F g p q s :
  p <> q -> nodeAt (Node_setSequence F g p s) q = nodeAt g q.
Proof.
  intros Hne. unfold nodeAt, Node_setSequence. cbn [g_nodes].
  rewrite !nth_lookup, list_lookup_insert_ne by exact Hne. reflexivity.
Qed.

(** X8. After [setSequence] has been called on the two (different) nodes of
    an edge, the stored lengths of the nodes are the sizes of the sequences
    [s] and [t] that the nodes now hold, and [testExactOverlap k], for a [k]
    that fits in both sequences, holds exactly when the last [k] bases of [s]
    are the first [k] bases of [t]. *)
Theorem setSequence_testExactOverlap (Sequence_of : list ascii -> list ascii)
    (g : AssemblyGraph) (this : DeBruijnEdge) (newSeq1 newSeq2 : list ascii) (k : nat) :
  m_startingNode this <> m_endingNode this ->
  (m_startingNode this < List.length (g_nodes g))%nat ->
  (m_endingNode this < List.length (g_nodes g))%nat ->
  (k <= List.length (Sequence_of newSeq1))%nat ->
  (k <= List.length (Sequence_of newSeq2))%nat ->
  let s := Sequence_of newSeq1 in
  let t := Sequence_of newSeq2 in
  let g' := setSequences Sequence_of g this newSeq1 newSeq2 in
  m_sequence (nodeAt g' (m_startingNode this)) = s
  /\ m_sequence (nodeAt g' (m_endingNode this)) = t
  /\ getLength (nodeAt g' (m_startingNode this)) = Z.of_nat (List.length s)
  /\ getLength (nodeAt g' (m_endingNode this)) = Z.of_nat (List.length t)
  /\ (testExactOverlap g' this (Z.of_nat k) = true
      <-> skipn (List.length s - k) s = firstn k t).
Proof.
  intros Hne Hp Hq Hks Hkt s t g'.
  assert (Hstart : nodeAt g' (m_startingNode this)
                   = setSequence Sequence_of (nodeAt g (m_startingNode this)) newSeq1).
  { unfold g', setSequences.
    rewrite nodeAt_setSequence_ne by congruence. now apply nodeAt_setSequence_eq. }
  assert (Hend : nodeAt g' (m_endingNode this)
                 = setSequence Sequence_of
                     (nodeAt (Node_setSequence Sequence_of g (m_startingNode this) newSeq1)
                        (m_endingNode this)) newSeq2).
  { unfold g', setSequences. apply nodeAt_setSequence_eq.
    unfold Node_setSequence. cbn [g_nodes]. now rewrite length_insert. }
  split; [now rewrite Hstart|]. split; [now rewrite Hend|].
  split; [now rewrite Hstart|]. split; [now rewrite Hend|].
  pose proof (testExactOverlap_suffix_prefix g' this k) as H.
  cbv zeta in H. rewrite Hstart, Hend in H.
  cbn [setSequence m_sequence getLength m_length] in H.
  apply H; [reflexivity|exact Hks|exact Hkt].
Qed.

(** The sequences GGACG and ACGTT given to the two nodes of
    [noSequenceGraph], with a sequence that holds the bytes it is built from:
    the overlap 3 passes. *)
Lemma setSequence_testExactOverlap_witness :
  testExactOverlap
    (setSequences (fun bytes => bytes) noSequenceGraph (edgeAt noSequenceGraph 0%nat)
       (list_ascii_of_string "GGACG") (list_ascii_of_string "ACGTT"))
    (edgeAt noSequenceGraph 0%nat) 3 = true.
Proof.
  apply (proj2 (proj2 (proj2 (proj2
           (setSequence_testExactOverlap (fun bytes => bytes) noSequenceGraph
              (edgeAt noSequenceGraph 0%nat)
              (list_ascii_of_string "GGACG") (list_ascii_of_string "ACGTT") 3%nat
              ltac:(cbn; lia) ltac:(cbn; lia) ltac:(cbn; lia)
              ltac:(cbn; lia) ltac:(cbn; lia)))))).
  reflexivity.
Defined.

(** ** Node names *)

Lemma substring_last_char : forall s c,
  exists d,
    String c s = (substring 0 (String.length s) (String c s) ++ String d EmptyString)%string
    /\ substring (String.length s) 1 (String c s) = String d EmptyString.
Proof.
  induction s as [|c' s IH]; intros c.
  - exists c. split; reflexivity.
  - destruct (IH c') as [d [Hs Hd]]. exists d. split.
    + change (String c (String c' s)
              = String c (substring 0 (String.length s) (String c' s)
                          ++ String d EmptyString)%string).
      f_equal. exact Hs.
    + exact Hd.
Qed.

(** X9. A non-empty node name is split into the name without sign and the
    sign: [getSign] is the last character of the name, and
    [getNameWithoutSign] followed by [getSign] is the name again. *)
Theorem getNameWithoutSign_getSign (n : DeBruijnNode) :
  m_name n <> EmptyString ->
  (getNameWithoutSign n ++ getSign n)%string = m_name n
  /\ String.length (getSign n) = 1%nat.
Proof.
  unfold getNameWithoutSign, getSign, QString_left, QString_right.
  destruct (m_name n) as [|c s]; [congruence|]. intros _.
  destruct (substring_last_char s c) as [d [Hs Hd]].
  cbn [String.length].
  destruct (Z.ltb_spec (Z.of_nat (S (String.length s)) - 1) 0) as [|_]; [lia|].
  destruct (Z.leb_spec (Z.of_nat (S (String.length s)))
              (Z.of_nat (S (String.length s)) - 1)) as [|_]; [lia|].
  destruct (Z.gtb_spec (Z.of_nat (S (String.length s))) 0) as [_|]; [|lia].
  cbn [orb]. replace (Z.to_nat (Z.of_nat (S (String.length s)) - 1)) with (String.length s) by lia.
  destruct (Z.ltb_spec 1 0) as [|_]; [lia|]. cbn [orb].
  destruct (Z.leb_spec (Z.of_nat (S (String.length s))) 1) as [Hone|Hmore].
  - destruct s as [|c' s]; [|cbn [String.length] in Hone; lia].
    split; reflexivity.
  - replace (S (String.length s) - Z.to_nat 1)%nat with (String.length s) by lia.
    change (Z.to_nat 1) with 1%nat. rewrite Hd. split; [now rewrite <- Hs|reflexivity].
Qed.

Lemma getNameWithoutSign_getSign_witness :
  (getNameWithoutSign (nodeAt strandGraph 3%nat) ++ getSign (nodeAt strandGraph 3%nat))%string
  = "2-"%string
  /\ String.length (getSign (nodeAt strandGraph 3%nat)) = 1%nat.
Proof. apply (getNameWithoutSign_getSign (nodeAt strandGraph 3%nat)). discriminate. Defined.

(** ** The order of edges *)

Lemma QString_lt_asym a b : QString_lt a b && QString_lt b a = false.
Proof.
  unfold QString_lt. rewrite (String.compare_antisym a b).
  destruct (String.compare b a); reflexivity.
Qed.

(** X10. [compareEdgePointers] never puts two edges before each other: for
    no two edges (and so for no edge and itself) does it answer true in both
    orders, whichever strings [toLongLong] accepts as numbers. *)
Theorem compareEdgePointers_asymmetric (toLongLong : string -> option Z)
    (g : AssemblyGraph) (a b : EdgePtr) :
  compareEdgePointers toLongLong g a b && compareEdgePointers toLongLong g b a = false.
Proof.
  unfold compareEdgePointers.
  destruct (toLongLong (chop1 (getName (nodeAt g (m_startingNode (edgeAt g a)))))) as [aS|];
  destruct (toLongLong (chop1 (getName (nodeAt g (m_startingNode (edgeAt g b)))))) as [bS|];
  destruct (toLongLong (chop1 (getName (nodeAt g (m_endingNode (edgeAt g a)))))) as [aE|];
  destruct (toLongLong (chop1 (getName (nodeAt g (m_endingNode (edgeAt g b)))))) as [bE|];
  try apply QString_lt_asym.
  destruct (Z.eqb_spec aS bS), (Z.eqb_spec bS aS); try lia; cbn [negb];
    apply andb_false_iff;
    [destruct (Z.ltb_spec aE bE), (Z.ltb_spec bE aE)
    |destruct (Z.ltb_spec aS bS), (Z.ltb_spec bS aS)]; auto; lia.
Qed.

(** ** The scorer: overlaps and the e-value product *)

(** X11. The overlap of two hits never exceeds the length of the node span
    of either hit, and for two hits on the same node it does not depend on the
    order of the hits. *)
Theorem getHitOverlap_bounded (g : AssemblyGraph) (hit1 hit2 : Hit) :
  getHitOverlap g hit1 hit2
  <= Z.max 0 (Z.min (m_nodeEnd hit1 - m_nodeStart hit1 + 1)
                    (m_nodeEnd hit2 - m_nodeStart hit2 + 1))
  /\ (m_node hit1 = m_node hit2 -> getHitOverlap g hit1 hit2 = getHitOverlap g hit2 hit1).
Proof.
  unfold getHitOverlap, spanOverlap. split.
  - destruct (m_node hit1 =? m_node hit2)%nat;
      [|destruct (m_deBruijnGraphEdges g !! (m_node hit1, m_node hit2)); [|lia]];
      match goal with |- context [?x >? 0] => destruct (Z.gtb_spec x 0) end; lia.
  - intros Heq. rewrite Heq, Nat.eqb_refl.
    rewrite (Z.min_comm (m_nodeEnd hit1)), (Z.max_comm (m_nodeStart hit1 - 1)). reflexivity.
Qed.

Lemma fold_left_ext_in {A B : Type} (f f' : A -> B -> A) : forall l a,
  (forall a b, In b l -> f a b = f' a b) ->
  fold_left f l a = fold_left f' l a.
Proof.
  induction l as [|b l IH]; intros a Hext; [reflexivity|]. cbn [fold_left].
  rewrite (Hext a b (or_introl eq_refl)). apply IH. intros a' b' Hb'. apply Hext. now right.
Qed.

(** A loop over the indices of a vector that reads the element at the index
    is a loop over the elements. *)
Lemma fold_left_seq_nth {A : Type} (F : A -> Hit -> A) : forall l pre st,
  fold_left (fun st i => F st (nth i (pre ++ l) nullHit))
    (seq (List.length pre) (List.length l)) st
  = fold_left F l st.
Proof.
  induction l as [|x l IH]; intros pre st; [reflexivity|].
  cbn [List.length seq fold_left]. rewrite app_nth2, Nat.sub_diag by lia. cbn [nth].
  specialize (IH (pre ++ [x]) (F st x)).
  rewrite <- app_assoc, length_app in IH. cbn [List.length app] in IH.
  rewrite Nat.add_1_r in IH. exact IH.
Qed.

(** X12. When no two consecutive hits of the chain overlap, no hit is
    discounted: the e-value product is built from the product of the
    coefficients of the hits and the sum of their exponents, and
    [SciNot::power] is not used. *)
Theorem getEvalueProduct_no_overlap (X : Collaborators) (g : AssemblyGraph) (qp : QueryPath) :
  (forall i, (S i < List.length (m_hits qp))%nat ->
     getHitOverlap g (nth i (m_hits qp) nullHit) (nth (S i) (m_hits qp) nullHit) = 0) ->
  getEvalueProduct X g qp = plainEvalueProduct X (m_hits qp).
Proof.
  intros Hfree. unfold getEvalueProduct, plainEvalueProduct.
  set (hits := m_hits qp) in *.
  set (F := fun '(c, e) (hit : Hit) =>
              ((c * getCoefficient (m_eValue hit))%float, e + getExponent (m_eValue hit))).
  assert (Hfold : fold_left (evalueStep X g hits) (seq 0 (List.length hits)) (1%float, 0)
                  = fold_left F hits (1%float, 0)).
  { rewrite <- (fold_left_seq_nth F hits [] (1%float, 0)). cbn [app List.length].
    apply fold_left_ext_in. intros [c e] i Hi. apply in_seq in Hi.
    unfold evalueStep, F. cbv zeta.
    assert (Hprev : (if (0 <? i)%nat
                     then if getHitOverlap g (nth (i - 1) hits nullHit) (nth i hits nullHit) >? 0
                          then (0 + double_of_int
                                      (getHitOverlap g (nth (i - 1) hits nullHit)
                                         (nth i hits nullHit)) / 2)%float
                          else 0%float
                     else 0%float) = 0%float).
    { destruct (Nat.ltb_spec 0 i) as [Hpos|]; [|reflexivity].
      pose proof (Hfree (i - 1)%nat ltac:(lia)) as H0.
      replace (S (i - 1)) with i in H0 by lia. now rewrite H0. }
    rewrite Hprev.
    assert (Hnext : (if (i <? List.length hits - 1)%nat
                     then if getHitOverlap g (nth i hits nullHit) (nth (i + 1) hits nullHit) >? 0
                          then (0 + double_of_int
                                      (getHitOverlap g (nth i hits nullHit)
                                         (nth (i + 1) hits nullHit)) / 2)%float
                          else 0%float
                     else 0%float) = 0%float).
    { destruct (Nat.ltb_spec i (List.length hits - 1)) as [Hlt|]; [|reflexivity].
      rewrite Nat.add_1_r, (Hfree i) by lia. reflexivity. }
    rewrite Hnext. reflexivity. }
  rewrite Hfold. reflexivity.
Qed.

(** A hit on 2+ followed by a hit on 1+: no edge leads from 2+ to 1+, the
    hits do not overlap, and the product is 1.0e-60. *)
Lemma getEvalueProduct_no_overlap_witness :
  getEvalueProduct (exampleCollaborators (fun x _ => x)) exampleGraph
    (QueryPath_ofHits examplePath exampleQuery [exampleHit2; exampleHit1])
  = plainEvalueProduct (exampleCollaborators (fun x _ => x)) [exampleHit2; exampleHit1].
Proof.
  apply (getEvalueProduct_no_overlap (exampleCollaborators (fun x _ => x)) exampleGraph
           (QueryPath_ofHits examplePath exampleQuery [exampleHit2; exampleHit1])).
  intros [|i] Hi; [reflexivity|cbn in Hi; lia].
Defined.

(** ** The scorer: the chain of a constructed QueryPath *)

Lemma StronglySorted_queryStartLt_NoDup (l : list Hit) :
  StronglySorted queryStartLt l -> NoDup l.
Proof.
  induction 1 as [|h l Hs IH Hall]; constructor; [|exact IH].
  intros Hin. rewrite Forall_forall in Hall. specialize (Hall h Hin).
  unfold queryStartLt in Hall. lia.
Qed.


Lemma sumOver_cons (f : Hit -> Z) h l : sumOver f (h :: l) = f h + sumOver f l.
Proof. reflexivity. Qed.

Lemma sumOver_fold (f : Hit -> Z) : forall l a,
  fold_left (fun total hit => total + f hit) l a = a + sumOver f l.
Proof.
  induction l as [|h l IH]; intros a; [cbn; lia|].
  cbn [fold_left]. rewrite IH, sumOver_cons. lia.
Qed.

Lemma sumOver_app (f : Hit -> Z) l1 l2 : sumOver f (l1 ++ l2) = sumOver f l1 + sumOver f l2.
Proof.
  induction l1 as [|h l1 IH]; [reflexivity|].
  cbn [app]. rewrite !sumOver_cons, IH. lia.
Qed.

Lemma sumOver_nonneg (f : Hit -> Z) l : (forall h, In h l -> 0 <= f h) -> 0 <= sumOver f l.
Proof.
  induction l as [|h l IH]; intros Hf; [cbn; lia|].
  rewrite sumOver_cons.
  pose proof (Hf h (or_introl eq_refl)).
  assert (0 <= sumOver f l) by (apply IH; intros; apply Hf; now right).
  lia.
Qed.

(** The sum over hits taken, each once, from a list does not exceed the sum
    over the list, for a count that is not negative. *)
Lemma sumOver_incl (f : Hit -> Z) : forall l L,
  NoDup l -> incl l L -> (forall h, In h L -> 0 <= f h) ->
  sumOver f l <= sumOver f L.
Proof.
  induction l as [|x l IH]; intros L Hnd Hincl Hf.
  - change (sumOver f []) with 0. now apply sumOver_nonneg.
  - inversion Hnd as [|? ? Hnotin Hnd']; subst.
    destruct (in_split x L (Hincl x (or_introl eq_refl))) as [L1 [L2 ->]].
    assert (Hincl' : incl l (L1 ++ L2)).
    { intros y Hy. pose proof (Hincl y (or_intror Hy)) as HyL.
      apply in_app_or in HyL as [HyL|[Heq|HyL]]; apply in_or_app; auto.
      subst. contradiction. }
    assert (Hf' : forall h, In h (L1 ++ L2) -> 0 <= f h).
    { intros h Hh. apply Hf. apply in_app_or in Hh as [Hh|Hh]; apply in_or_app; auto.
      right. now right. }
    specialize (IH (L1 ++ L2) Hnd' Hincl' Hf').
    rewrite sumOver_app in *. rewrite !sumOver_cons. lia.
Qed.

(** X13. A constructed QueryPath holds every hit at most once, holds only
    hits of its query, so no more hits than the query has, and [queryStart]
    is the least query start among its hits. *)
Theorem QueryPath_new_hits_distinct (sort : list Hit -> list Hit) (path : Path)
    (query : Query) :
  (forall l, Permutation (sort l) l) ->
  NoDup (m_hits (QueryPath_new sort path query))
  /\ (List.length (m_hits (QueryPath_new sort path query)) <= List.length (getHits query))%nat
  /\ (forall h, In h (m_hits (QueryPath_new sort path query)) ->
        In h (getHits query)
        /\ queryStart (QueryPath_new sort path query) <= m_queryStart h).
Proof.
  intros Hperm.
  assert (Hsort : forall l h, In h (sort l) -> In h l).
  { intros l h Hh. eapply Permutation_in; [apply Hperm|exact Hh]. }
  destruct (QueryPath_new_invariant sort path query Hsort) as [Hsorted Hadm].
  cbv zeta in Hsorted, Hadm.
  pose proof (StronglySorted_queryStartLt_NoDup _ Hsorted) as Hnd.
  assert (Hincl : incl (m_hits (QueryPath_new sort path query)) (getHits query)).
  { intros h Hh. apply (Hadm h Hh). }
  split; [exact Hnd|]. split; [now apply NoDup_incl_length|].
  intros h Hh. split; [now apply Hincl|].
  unfold queryStart. destruct (m_hits (QueryPath_new sort path query)) as [|first rest];
    [destruct Hh|].
  cbn [front hd_error]. destruct Hh as [<-|Hh]; [lia|].
  apply StronglySorted_inv in Hsorted as [_ Hall].
  rewrite Forall_forall in Hall. specialize (Hall h Hh). unfold queryStartLt in Hall. lia.
Qed.

Lemma QueryPath_new_hits_distinct_witness :
  NoDup (m_hits (QueryPath_new sortByQueryStart examplePath exampleQuery))
  /\ (List.length (m_hits (QueryPath_new sortByQueryStart examplePath exampleQuery))
      <= List.length (getHits exampleQuery))%nat
  /\ (forall h, In h (m_hits (QueryPath_new sortByQueryStart examplePath exampleQuery)) ->
        In h (getHits exampleQuery)
        /\ queryStart (QueryPath_new sortByQueryStart examplePath exampleQuery)
           <= m_queryStart h).
Proof.
  exact (QueryPath_new_hits_distinct sortByQueryStart examplePath exampleQuery
           sortByQueryStart_perm).
Defined.



(** X15. For a query whose hits have no negative counts, the total numbers
    of mismatches and of gap opens of a constructed QueryPath are not negative
    and do not exceed the totals over all hits of the query. *)
Theorem getTotalHitMismatches_bounded (sort : list Hit -> list Hit) (path : Path)
    (query : Query) :
  (forall l, Permutation (sort l) l) ->
  (forall h, In h (getHits query) -> 0 <= m_numberMismatches h /\ 0 <= m_numberGapOpens h) ->
  0 <= getTotalHitMismatches (QueryPath_new sort path query)
    <= sumOver m_numberMismatches (getHits query)
  /\ 0 <= getTotalHitGapOpens (QueryPath_new sort path query)
       <= sumOver m_numberGapOpens (getHits query).
Proof.
  intros Hperm Hcounts.
  assert (Hsort : forall l h, In h (sort l) -> In h l).
  { intros l h Hh. eapply Permutation_in; [apply Hperm|exact Hh]. }
  destruct (QueryPath_new_invariant sort path query Hsort) as [Hsorted Hadm].
  cbv zeta in Hsorted, Hadm.
  pose proof (StronglySorted_queryStartLt_NoDup _ Hsorted) as Hnd.
  assert (Hincl : incl (m_hits (QueryPath_new sort path query)) (getHits query)).
  { intros h Hh. apply (Hadm h Hh). }
  unfold getTotalHitMismatches, getTotalHitGapOpens. rewrite !sumOver_fold.
  pose proof (sumOver_incl m_numberMismatches _ _ Hnd Hincl (fun h Hh => proj1 (Hcounts h Hh))).
  pose proof (sumOver_incl m_numberGapOpens _ _ Hnd Hincl (fun h Hh => proj2 (Hcounts h Hh))).
  pose proof (sumOver_nonneg m_numberMismatches (m_hits (QueryPath_new sort path query))
                (fun h Hh => proj1 (Hcounts h (Hincl h Hh)))).
  pose proof (sumOver_nonneg m_numberGapOpens (m_hits (QueryPath_new sort path query))
                (fun h Hh => proj2 (Hcounts h (Hincl h Hh)))).
  lia.
Qed.

Lemma getTotalHitMismatches_bounded_witness :
  0 <= getTotalHitMismatches (QueryPath_new sortByQueryStart examplePath mismatchQuery)
    <= sumOver m_numberMismatches (getHits mismatchQuery)
  /\ 0 <= getTotalHitGapOpens (QueryPath_new sortByQueryStart examplePath mismatchQuery)
       <= sumOver m_numberGapOpens (getHits mismatchQuery).
Proof.
  apply (getTotalHitMismatches_bounded sortByQueryStart examplePath mismatchQuery
           sortByQueryStart_perm).
  intros h [<-|[<-|[]]]; cbn; lia.
Defined.

(** ** The scorer: the ranking is a strict order *)

(** The comparison of two binary64 values, read in the other direction. *)
Lemma SFcompare_antisym x y : SFcompare y x = option_map CompOpp (SFcompare x y).
Proof.
  destruct x as [sx|sx| |sx mx ex], y as [sy|sy| |sy my ey]; unfold SFcompare, option_map;
    try (destruct sx, sy; reflexivity); try (destruct sx; reflexivity);
    try (destruct sy; reflexivity); try reflexivity.
  change (PosDef.Pos.compare_cont Eq my mx) with (my ?= mx)%positive.
  change (PosDef.Pos.compare_cont Eq mx my) with (mx ?= my)%positive.
  rewrite (Z.compare_antisym ex ey), (Pos.compare_antisym mx my).
  destruct sx, sy, (ex ?= ey)%Z, (mx ?= my)%positive; reflexivity.
Qed.

Lemma double_lt_asym a b : double_lt a b = true -> double_lt b a = false.
Proof.
  unfold double_lt. rewrite !FloatAxioms.ltb_spec. unfold SFltb.
  rewrite (SFcompare_antisym (Prim2SF a) (Prim2SF b)).
  destruct (SFcompare (Prim2SF a) (Prim2SF b)) as [[| |]|]; cbn; congruence.
Qed.

Lemma double_ne_sym a b : double_ne a b = double_ne b a.
Proof.
  unfold double_ne. rewrite !FloatAxioms.eqb_spec. unfold SFeqb.
  rewrite (SFcompare_antisym (Prim2SF a) (Prim2SF b)).
  destruct (SFcompare (Prim2SF a) (Prim2SF b)) as [[| |]|]; reflexivity.
Qed.

(** X16. [operator<] never ranks two QueryPaths before each other: when the
    comparison of the two e-value products by [SciNot] is itself consistent
    ([!=] gives the same answer in both orders and [<] does not hold in both
    orders), [a < b] excludes [b < a]. The three other keys are doubles, whose
    comparisons are consistent for every value, NaN included. *)
Theorem QueryPath_lt_asymmetric (X : Collaborators) (g : AssemblyGraph) (a b : QueryPath) :
  SciNot_ne X (getEvalueProduct X g a) (getEvalueProduct X g b)
  = SciNot_ne X (getEvalueProduct X g b) (getEvalueProduct X g a) ->
  (SciNot_lt X (getEvalueProduct X g a) (getEvalueProduct X g b) = true ->
   SciNot_lt X (getEvalueProduct X g b) (getEvalueProduct X g a) = false) ->
  QueryPath_lt X g a b = Some true ->
  QueryPath_lt X g b a = Some false.
Proof.
  intros Hne Hlt. unfold QueryPath_lt. rewrite <- Hne.
  destruct (SciNot_ne X (getEvalueProduct X g a) (getEvalueProduct X g b)).
  { intros [= H]. now rewrite (Hlt H). }
  rewrite (double_ne_sym (getMeanHitPercIdentity b)).
  destruct (double_ne (getMeanHitPercIdentity a) (getMeanHitPercIdentity b)).
  { unfold double_gt. intros [= H]. f_equal. now apply (double_lt_asym _ _ H). }
  destruct (getRelativeLengthDiscrepancy X a) as [da|]; [|discriminate].
  destruct (getRelativeLengthDiscrepancy X b) as [db|]; [|discriminate].
  rewrite (double_ne_sym (PrimFloat.abs db)).
  destruct (double_ne (PrimFloat.abs da) (PrimFloat.abs db)).
  { intros [= H]. f_equal. now apply double_lt_asym. }
  rewrite (double_ne_sym (getHitsQueryCoverage X b)).
  destruct (double_ne (getHitsQueryCoverage X a) (getHitsQueryCoverage X b)).
  { unfold double_gt. intros [= H]. f_equal. now apply (double_lt_asym _ _ H). }
  discriminate.
Qed.

(** The path with the hit of e-value 1e-50 ranks before the path with the hit
    of e-value 1e-10, and not the other way round. *)
Lemma QueryPath_lt_asymmetric_witness :
  QueryPath_lt (exampleCollaborators (fun x _ => x)) exampleGraph
    (QueryPath_ofHits examplePath exampleQuery [exampleHit2])
    (QueryPath_ofHits examplePath exampleQuery [exampleHit1])
  = Some false.
Proof.
  apply (QueryPath_lt_asymmetric (exampleCollaborators (fun x _ => x)) exampleGraph
           (QueryPath_ofHits examplePath exampleQuery [exampleHit1])
           (QueryPath_ofHits examplePath exampleQuery [exampleHit2]));
    vm_compute; reflexivity.
Defined.

(** ** BlastSearch: errors, workers and signals *)

Ltac blast_cases E this :=
  destruct this as [mk bn tb err bw sw sig]; cbn;
  destruct (findProgram E "makeblastdb" mk) as [[|] c1]; cbn;
  [destruct (findProgram E "blastn" bn) as [[|] c2]; cbn;
   [destruct (findProgram E "tblastn" tb) as [[|] c3]; cbn|]|].

(** X17. [buildDatabase] returns the error it leaves in [m_lastError], and
    leaves both worker pointers as it found them. It emits one signal,
    [finishedDbBuild] with the returned string, exactly when the three tools
    were found and no build was in progress; otherwise it emits nothing and
    the string it returns is not empty. After a call made while no build was
    in progress, [cancelDatabaseBuild] does nothing. *)
Theorem buildDatabase_report (E : Environment) (this : BlastSearch) :
  let r := buildDatabase E this in
  let ran := toolsFound E this && negb (m_buildDbWorker this) in
  fst r = m_lastError (snd r)
  /\ m_buildDbWorker (snd r) = m_buildDbWorker this
  /\ m_runSearchWorker (snd r) = m_runSearchWorker this
  /\ emitted (snd r) = emitted this ++ (if ran then [finishedDbBuild (fst r)] else [])
  /\ (ran = false -> fst r <> EmptyString)
  /\ (m_buildDbWorker this = false -> cancelDatabaseBuild (snd r) = snd r).
Proof.
  cbv zeta. unfold buildDatabase, findTools, toolsFound, cancelDatabaseBuild.
  blast_cases E this;
    try (destruct bw; cbn; [|destruct (buildBlastDatabase E c1) as [[|] e]; cbn]);
    rewrite ?app_nil_r; repeat split; try reflexivity; try discriminate.
Qed.

(** X18. [doSearch] returns the error it leaves in [m_lastError], and leaves
    both worker pointers as it found them. It emits one signal,
    [finishedSearch] with the returned string, exactly when the three tools
    were found and no search was in progress; otherwise it emits nothing and
    the string it returns is not empty. After a call made while no search was
    in progress, [cancelSearch] does nothing. *)
Theorem doSearch_report (E : Environment) (extraParameters : string) (this : BlastSearch) :
  let r := doSearch E extraParameters this in
  let ran := toolsFound E this && negb (m_runSearchWorker this) in
  fst r = m_lastError (snd r)
  /\ m_buildDbWorker (snd r) = m_buildDbWorker this
  /\ m_runSearchWorker (snd r) = m_runSearchWorker this
  /\ emitted (snd r) = emitted this ++ (if ran then [finishedSearch (fst r)] else [])
  /\ (ran = false -> fst r <> EmptyString)
  /\ (m_runSearchWorker this = false -> cancelSearch (snd r) = snd r).
Proof.
  cbv zeta. unfold doSearch, findTools, toolsFound, cancelSearch.
  blast_cases E this;
    try (destruct sw; cbn;
         [|destruct (runBlastSearch E c2 c3 extraParameters) as [[|] e]; cbn]);
    rewrite ?app_nil_r; repeat split; intros; subst; try reflexivity; try discriminate.
Qed.

(** X19. Both [buildDatabase] and [doSearch] look for the three tools in the
    order makeblastdb, blastn, tblastn and return the message of the first one
    that is not found, so [buildDatabase] fails when only blastn or tblastn is
    missing; with the three tools found, a call made while the same operation
    is in progress returns the in-progress message. *)
Theorem missing_tool_reported (E : Environment) (extraParameters : string)
    (this : BlastSearch) :
  let makeblastdb := fst (findProgram E "makeblastdb" (m_makeblastdbCommand this)) in
  let blastn := fst (findProgram E "blastn" (m_blastnCommand this)) in
  let tblastn := fst (findProgram E "tblastn" (m_tblastnCommand this)) in
  (makeblastdb = false ->
   fst (buildDatabase E this) = makeblastdbNotFound
   /\ fst (doSearch E extraParameters this) = makeblastdbNotFound)
  /\ (makeblastdb = true -> blastn = false ->
      fst (buildDatabase E this) = blastnNotFound
      /\ fst (doSearch E extraParameters this) = blastnNotFound)
  /\ (makeblastdb = true -> blastn = true -> tblastn = false ->
      fst (buildDatabase E this) = tblastnNotFound
      /\ fst (doSearch E extraParameters this) = tblastnNotFound)
  /\ (makeblastdb = true -> blastn = true -> tblastn = true ->
      (m_buildDbWorker this = true ->
       fst (buildDatabase E this) = "Building is already in progress"%string)
      /\ (m_runSearchWorker this = true ->
          fst (doSearch E extraParameters this) = "Search is already in progress"%string)).
Proof.
  cbv zeta. unfold buildDatabase, doSearch, findTools.
  blast_cases E this; repeat split; intros; try discriminate; try reflexivity;
    subst; reflexivity.
Qed.

(** ** Visible edges *)

(** Of an edge and its reverse-complement partner, when they are two edges
    that start at differently named nodes, exactly one is positive. *)
Lemma isPositiveEdge_partner (g : AssemblyGraph) (this : EdgePtr) :
  strandFlipped g this ->
  m_reverseComplement (edgeAt g this) <> this ->
  m_reverseComplement (edgeAt g (m_reverseComplement (edgeAt g this))) = this ->
  getName (nodeAt g (m_startingNode (edgeAt g this)))
  <> getName (nodeAt g (m_startingNode (edgeAt g (m_reverseComplement (edgeAt g this))))) ->
  isPositiveEdge g (m_reverseComplement (edgeAt g this)) = negb (isPositiveEdge g this).
Proof.
  intros [Hs [He [[Hpe Hne] [Hps Hns]]]] Hdistinct Hback Hnames. cbv zeta in *.
  rewrite <- He in Hpe, Hne. rewrite <- Hs in Hps, Hns.
  set (e := edgeAt g this) in *.
  set (partner := m_reverseComplement e) in *.
  set (A := nodeAt g (m_startingNode e)) in *.
  set (B := nodeAt g (m_endingNode e)) in *.
  set (A' := nodeAt g (m_startingNode (edgeAt g partner))) in *.
  set (B' := nodeAt g (m_endingNode (edgeAt g partner))) in *.
  pose proof (isPositive_isNegative_exclusive A) as HexA.
  pose proof (isPositive_isNegative_exclusive B) as HexB.
  assert (Hthis : isPositiveEdge g this
                  = if isPositiveNode A && isPositiveNode B then true
                    else if isNegativeNode A && isNegativeNode B then false
                    else QString_gt (getName A) (getName A')).
  { unfold isPositiveEdge, isOwnReverseComplement. fold e partner A B A'.
    destruct (Nat.eqb_spec this partner); [congruence|reflexivity]. }
  assert (Hpartner : isPositiveEdge g partner
                     = if isNegativeNode B && isNegativeNode A then true
                       else if isPositiveNode B && isPositiveNode A then false
                       else QString_gt (getName A') (getName A)).
  { unfold isPositiveEdge, isOwnReverseComplement. fold A' B'.
    rewrite Hback. fold e A. rewrite Hps, Hns, Hpe, Hne.
    destruct (Nat.eqb_spec partner this); [congruence|reflexivity]. }
  rewrite Hthis, Hpartner, (QString_gt_antisym (getName A') (getName A)) by congruence.
  destruct (isPositiveNode A), (isPositiveNode B), (isNegativeNode A), (isNegativeNode B);
    cbn in *; try discriminate; try reflexivity; now rewrite negb_involutive.
Qed.

(** X20. In single mode, of an edge and its reverse-complement partner the
    program shows at most one, and it shows exactly one of them when the two
    nodes of the edge, or their reverse complements, are drawn. This holds for
    an edge that satisfies the strand-flip invariant of the data model, whose
    partner is another edge that starts at a differently named node, and
    whose two nodes are the reverse complements of their reverse
    complements. *)
Theorem edgeIsVisible_single_mode (isDrawn : NodePtr -> bool) (g : AssemblyGraph)
    (this : EdgePtr) :
  strandFlipped g this ->
  m_reverseComplement (edgeAt g this) <> this ->
  m_reverseComplement (edgeAt g (m_reverseComplement (edgeAt g this))) = this ->
  getName (nodeAt g (m_startingNode (edgeAt g this)))
  <> getName (nodeAt g (m_startingNode (edgeAt g (m_reverseComplement (edgeAt g this))))) ->
  reverseComplementInvolutive g (m_startingNode (edgeAt g this)) ->
  reverseComplementInvolutive g (m_endingNode (edgeAt g this)) ->
  edgeIsVisible false isDrawn g this
  && edgeIsVisible false isDrawn g (m_reverseComplement (edgeAt g this)) = false
  /\ edgeIsVisible false isDrawn g this
     || edgeIsVisible false isDrawn g (m_reverseComplement (edgeAt g this))
     = endsDrawn isDrawn g this.
Proof.
  intros Hflip Hdistinct Hback Hnames HrcA HrcB.
  pose proof (isPositiveEdge_partner g this Hflip Hdistinct Hback Hnames) as Hpos.
  destruct Hflip as [Hs [He _]]. cbv zeta in Hs, He.
  unfold reverseComplementInvolutive in HrcA, HrcB.
  unfold edgeIsVisible, endsDrawn. cbv zeta.
  rewrite Hs, He, HrcA, HrcB, Hpos.
  destruct (isDrawn (m_startingNode (edgeAt g this))),
           (isDrawn (m_endingNode (edgeAt g this))),
           (isDrawn (getReverseComplement (nodeAt g (m_startingNode (edgeAt g this))))),
           (isDrawn (getReverseComplement (nodeAt g (m_endingNode (edgeAt g this))))),
           (isPositiveEdge g this); split; reflexivity.
Qed.

(** In [strandGraph] with the positive nodes drawn, of the pair 1+ -> 2- and
    2+ -> 1- one edge is shown. *)
Lemma edgeIsVisible_single_mode_witness :
  edgeIsVisible false (fun p => Nat.even p) strandGraph 2%nat
  && edgeIsVisible false (fun p => Nat.even p) strandGraph 3%nat = false
  /\ edgeIsVisible false (fun p => Nat.even p) strandGraph 2%nat
     || edgeIsVisible false (fun p => Nat.even p) strandGraph 3%nat
     = endsDrawn (fun p => Nat.even p) strandGraph 2%nat.
Proof.
  apply (edgeIsVisible_single_mode (fun p => Nat.even p) strandGraph 2%nat).
  - repeat split.
  - cbn. lia.
  - reflexivity.
  - cbn. discriminate.
  - reflexivity.
  - reflexivity.
Defined.

(** ** Next edges, and step bounds that are not positive *)

(** X21. Every edge that [findNextEdgesInPath] returns for a node is one of
    the edges of that node, leaves the node (forward) or enters it (backward),
    and leads the traversal to the node that [getOtherNode] returns for it. *)
Theorem findNextEdgesInPath_other_node (g : AssemblyGraph) (nextNode : NodePtr)
    (forward : bool) (edge : EdgePtr) :
  In edge (findNextEdgesInPath g nextNode forward) ->
  In edge (m_edges (nodeAt g nextNode))
  /\ (if forward then m_startingNode (edgeAt g edge) else m_endingNode (edgeAt g edge))
     = nextNode
  /\ nextNodeOf g forward edge = getOtherNode (edgeAt g edge) nextNode.
Proof.
  unfold findNextEdgesInPath, nextNodeOf, getOtherNode. intros Hin.
  apply filter_In in Hin as [Hin Htest]. split; [exact Hin|].
  destruct forward; cbn [andb orb negb] in Htest.
  - rewrite orb_false_r in Htest. apply Nat.eqb_eq in Htest.
    split; [exact Htest|]. now rewrite <- Htest, Nat.eqb_refl.
  - apply Nat.eqb_eq in Htest. split; [exact Htest|].
    destruct (Nat.eqb_spec nextNode (m_startingNode (edgeAt g edge))); congruence.
Qed.

Lemma findNextEdgesInPath_other_node_witness :
  In 1%nat (m_edges (nodeAt cycle3 1%nat))
  /\ m_startingNode (edgeAt cycle3 1%nat) = 1%nat
  /\ nextNodeOf cycle3 true 1%nat = getOtherNode (edgeAt cycle3 1%nat) 1%nat.
Proof.
  apply (findNextEdgesInPath_other_node cycle3 1%nat true 1%nat). cbn. tauto.
Defined.

Lemma tracePaths_nonpositive_aux g forward startingNode : forall fuel this s s' acc p,
  s <= 0 -> s' <= 0 ->
  tracePaths fuel g this forward s acc startingNode p
  = tracePaths fuel g this forward s' acc startingNode p.
Proof.
  induction fuel as [|fuel IH]; intros this s s' acc p Hs Hs'; [reflexivity|].
  cbn [tracePaths].
  destruct (Z.eqb_spec (s - 1) 0) as [|_]; [lia|].
  destruct (Z.eqb_spec (s' - 1) 0) as [|_]; [lia|].
  destruct (findNextEdgesInPath g (nextNodeOf g forward this) forward) as [|e0 es];
    [reflexivity|].
  apply tracePaths_loop_ext. intros e acc' _ _. apply IH; lia.
Qed.

(** X22. A step bound that is not positive is no bound for the enumeration:
    the count of remaining steps never meets zero, and every bound of zero or
    less gives the same paths. *)
Theorem tracePaths_nonpositive_bound (g : AssemblyGraph) (this : EdgePtr) (forward : bool)
    (maxSteps maxSteps' : Z) (startingNode : NodePtr) :
  maxSteps <= 0 -> maxSteps' <= 0 ->
  tracePaths_run g this forward maxSteps startingNode
  = tracePaths_run g this forward maxSteps' startingNode.
Proof. intros Hs Hs'. unfold tracePaths_run. now apply tracePaths_nonpositive_aux. Qed.

(** On the cycle A -> B -> C -> A the bounds 0 and -7 give the same paths. *)
Lemma tracePaths_nonpositive_bound_witness :
  tracePaths_run cycle3 0%nat true 0 7%nat = tracePaths_run cycle3 0%nat true (-7) 7%nat.
Proof. apply (tracePaths_nonpositive_bound cycle3 0%nat true 0 (-7) 7%nat); lia. Defined.

Lemma leadsOnlyToNode_loop_ext rec rec' g forward pathSoFar :
  (forall e, rec e = rec' e) ->
  forall nextEdges,
    leadsOnlyToNode_loop rec g forward pathSoFar nextEdges
    = leadsOnlyToNode_loop rec' g forward pathSoFar nextEdges.
Proof.
  intros Hext. induction nextEdges as [|e rest IH]; cbn [leadsOnlyToNode_loop]; [reflexivity|].
  rewrite Hext, IH. reflexivity.
Qed.

Lemma leadsOnlyToNode_nonpositive_aux g forward target rc : forall fuel this s s' p,
  s <= 0 -> s' <= 0 ->
  leadsOnlyToNode fuel g this forward s target p rc
  = leadsOnlyToNode fuel g this forward s' target p rc.
Proof.
  induction fuel as [|fuel IH]; intros this s s' p Hs Hs'; [reflexivity|].
  cbn [leadsOnlyToNode].
  set (n := nextNodeOf g forward this).
  destruct (n =? nth 0 (p ++ [n]) 0)%nat; [reflexivity|].
  destruct (n =? target)%nat; [reflexivity|].
  destruct (rc && (getReverseComplement (nodeAt g n) =? target)%nat); [reflexivity|].
  destruct (Z.eqb_spec (s - 1) 0) as [|_]; [lia|].
  destruct (Z.eqb_spec (s' - 1) 0) as [|_]; [lia|].
  destruct (findNextEdgesInPath g n forward) as [|e0 es]; [reflexivity|].
  apply leadsOnlyToNode_loop_ext. intros e. apply IH; lia.
Qed.

(** X23. A step bound that is not positive is no bound for the search: every
    bound of zero or less gives the same verdict, and the search then never
    fails for lack of steps. *)
Theorem leadsOnlyToNode_nonpositive_bound (g : AssemblyGraph) (this : EdgePtr)
    (forward : bool) (maxSteps maxSteps' : Z) (target : NodePtr)
    (pathSoFar : list NodePtr) (includeReverseComplement : bool) :
  maxSteps <= 0 -> maxSteps' <= 0 ->
  leadsOnlyToNode_run g this forward maxSteps target pathSoFar includeReverseComplement
  = leadsOnlyToNode_run g this forward maxSteps' target pathSoFar includeReverseComplement.
Proof. intros Hs Hs'. unfold leadsOnlyToNode_run. now apply leadsOnlyToNode_nonpositive_aux. Qed.

(** In [sideCycleGraph] the search from O -> A for T gives the same verdict
    with the bounds 0 and -3. *)
Lemma leadsOnlyToNode_nonpositive_bound_witness :
  leadsOnlyToNode_run sideCycleGraph 0%nat true 0 2%nat [0%nat] false
  = leadsOnlyToNode_run sideCycleGraph 0%nat true (-3) 2%nat [0%nat] false.
Proof.
  apply (leadsOnlyToNode_nonpositive_bound sideCycleGraph 0%nat true 0 (-3) 2%nat
           [0%nat] false); lia.
Defined.
